(** * CLIFileExplorer: the tree flattener and the navigation loop of [ws.py]

    A shallow embedding of [ws.py] (a curses file explorer) and the proofs of
    the properties its specification states about it.

    The filesystem ([os.listdir], [os.path.isdir]), [str.lower], the current
    working directory and the interpreter's recursion limit are the
    environment of the program; they are parameters of the embedding.
    [os.path] is POSIX [posixpath], embedded from its definition. Python
    strings are modelled by their UTF-8 bytes: concatenation and the
    code-point order of [str] comparison are the same on both.

    [draw_menu] only writes to the terminal and assigns no variable of
    [main]: the loop is embedded without it, and [draw_menu] by itself as
    the sequence of calls it makes on the window. What curses does with a
    call, an error on a write outside the window included, is not part of
    the embedding. *)

From Stdlib Require Import ZArith String Ascii List Sorted Permutation Lia Bool.
From stdpp Require Import base gmap sets list strings.

Open Scope string_scope.
Open Scope list_scope.

(* ===================================================================== *)
(** ** Python values: exceptions, indexing, [sorted] *)
(* ===================================================================== *)

Module Py.

(** The exceptions the program can meet. [OSError] stands for every
    [OSError] other than [PermissionError] ([FileNotFoundError],
    [NotADirectoryError], ...). *)
Inductive exn : Type :=
| PermissionError
| OSError
| RecursionError
| IndexError.

Inductive result (A : Type) : Type :=
| Ok (a : A)
| Raise (e : exn).
Arguments Ok {A} a.
Arguments Raise {A} e.

Definition bind {A B : Type} (r : result A) (k : A → result B) : result B :=
  match r with
  | Ok a => k a
  | Raise e => Raise e
  end.

Notation "'let*' x ':=' r 'in' k" := (bind r (fun x => k))
  (at level 10, x name, r at level 100, k at level 200, only parsing).

(** [l[i]] for a Python list: a negative index counts from the end, an index
    out of range raises [IndexError]. *)
Definition getitem {A : Type} (l : list A) (i : Z) : result A :=
  let n := Z.of_nat (length l) in
  let j := (if i <? 0 then i + n else i)%Z in
  if ((j <? 0) || (n <=? j))%Z then Raise IndexError
  else match l !! Z.to_nat j with
       | Some x => Ok x
       | None => Raise IndexError
       end.

(** [sorted(l, key=...)] is a stable sort: with [leb] the order of the keys,
    an element goes in front of the first element that is not smaller, so
    elements with equal keys keep the order of the input. *)
Section Sorted.
Context {A : Type} (leb : A → A → bool).

Fixpoint insert_sorted (x : A) (l : list A) : list A :=
  match l with
  | [] => [x]
  | y :: l' => if leb x y then x :: l else y :: insert_sorted x l'
  end.

Fixpoint sorted (l : list A) : list A :=
  match l with
  | [] => []
  | x :: l' => insert_sorted x (sorted l')
  end.
End Sorted.

End Py.
Import Py.

(* ===================================================================== *)
(** ** [os.path] on POSIX *)
(* ===================================================================== *)

Module PosixPath.

Definition sep : ascii := "/"%char.

Definition startswith_sep (s : string) : bool :=
  match s with
  | String c _ => Ascii.eqb c sep
  | EmptyString => false
  end.

Fixpoint endswith_sep (s : string) : bool :=
  match s with
  | EmptyString => false
  | String c EmptyString => Ascii.eqb c sep
  | String _ s' => endswith_sep s'
  end.

Fixpoint contains_sep (s : string) : bool :=
  match s with
  | EmptyString => false
  | String c s' => Ascii.eqb c sep || contains_sep s'
  end.

(** [all_sep s] is [s == sep * len(s)]. *)
Fixpoint all_sep (s : string) : bool :=
  match s with
  | EmptyString => true
  | String c s' => Ascii.eqb c sep && all_sep s'
  end.

(** [s.rstrip(sep)] *)
Fixpoint rstrip_sep (s : string) : string :=
  match s with
  | EmptyString => EmptyString
  | String c s' =>
      match rstrip_sep s' with
      | EmptyString => if Ascii.eqb c sep then EmptyString else String c EmptyString
      | r => String c r
      end
  end.

(** With [i = p.rfind(sep) + 1]: [head_part p] is [p[:i]] and [tail_part p]
    is [p[i:]]. *)
Fixpoint head_part (p : string) : string :=
  match p with
  | EmptyString => EmptyString
  | String c s =>
      if contains_sep s then String c (head_part s)
      else if Ascii.eqb c sep then String c EmptyString
      else EmptyString
  end.

Fixpoint tail_part (p : string) : string :=
  match p with
  | EmptyString => EmptyString
  | String c s =>
      if contains_sep s then tail_part s
      else if Ascii.eqb c sep then s
      else String c s
  end.

(** [os.path.join(a, b)] *)
Definition join (a b : string) : string :=
  if startswith_sep b then b
  else if String.eqb a "" || endswith_sep a then a +:+ b
  else a +:+ "/" +:+ b.

(** [os.path.dirname(p)] *)
Definition dirname (p : string) : string :=
  let head := head_part p in
  if negb (String.eqb head "") && negb (all_sep head) then rstrip_sep head
  else head.

(** [os.path.basename(p)] *)
Definition basename (p : string) : string := tail_part p.

Definition isabs (s : string) : bool := startswith_sep s.

(** [p.split(sep)] *)
Fixpoint split_sep (p : string) : list string :=
  match p with
  | EmptyString => [EmptyString]
  | String c s =>
      if Ascii.eqb c sep then EmptyString :: split_sep s
      else match split_sep s with
           | h :: t => String c h :: t
           | [] => [String c EmptyString]
           end
  end.

(** [sep.join(comps)] *)
Fixpoint join_sep (comps : list string) : string :=
  match comps with
  | [] => ""
  | [c] => c
  | c :: rest => c +:+ "/" +:+ join_sep rest
  end.

(** One round of the loop of [normpath] over the components. *)
Definition normpath_step (initial_slashes : nat) (new_comps : list string)
    (comp : string) : list string :=
  if String.eqb comp "" || String.eqb comp "." then new_comps
  else if negb (String.eqb comp "..")
          || (Nat.eqb initial_slashes 0 && Nat.eqb (length new_comps) 0)
          || (negb (Nat.eqb (length new_comps) 0)
              && String.eqb (List.last new_comps "") "..")
       then new_comps ++ [comp]
       else List.removelast new_comps.

Fixpoint repeat_sep (n : nat) : string :=
  match n with
  | O => ""
  | S n' => String sep (repeat_sep n')
  end.

(** [os.path.normpath(path)] *)
Definition normpath (path : string) : string :=
  if String.eqb path "" then "."
  else
    let initial_slashes :=
      if startswith_sep path then
        if String.prefix "//" path && negb (String.prefix "///" path) then 2 else 1
      else 0 in
    let comps := fold_left (normpath_step initial_slashes) (split_sep path) [] in
    let path' := repeat_sep initial_slashes +:+ join_sep comps in
    if String.eqb path' "" then "." else path'.

(** [os.path.abspath(path)], with [cwd] what [os.getcwd()] returns. *)
Definition abspath (cwd path : string) : string :=
  normpath (if isabs path then path else join cwd path).

End PosixPath.
Import PosixPath.

(** A name [os.listdir] can return: not empty, without a separator, and
    neither of the special entries [.] and [..]. *)
Definition valid_name (e : string) : bool :=
  negb (String.eqb e "") && negb (contains_sep e)
  && negb (String.eqb e ".") && negb (String.eqb e "..").

(* ===================================================================== *)
(** ** The environment of the program *)
(* ===================================================================== *)

(** What the program reads from outside itself. [listdir p] is
    [os.listdir(p)]: the names in the directory, or an exception
    ([PermissionError], or [OSError] for any other failure); [isdir p] is
    [os.path.isdir(p)], which never raises; [lower] is [str.lower];
    [recursion_limit] is the number of nested calls of [recurse] the
    interpreter allows before it raises [RecursionError]; [getcwd] is what
    [os.getcwd()] returns. *)
Record Env : Type := {
  listdir : string → result (list string);
  isdir : string → bool;
  lower : string → string;
  recursion_limit : nat;
  getcwd : string;
}.

(* ===================================================================== *)
(** ** [ws.py] *)
(* ===================================================================== *)

Definition FOLDER_ICON : string := "📁".
Definition FILE_ICON : string := "📄".
Definition PLUS_ICON : string := "+".
Definition NO_ACCESS_ICON : string := "Θ".

(** The tuples [(display_name, full_path, is_dir, depth)] of [flatten_tree]. *)
Record row : Type := Row {
  display_name : string;
  full_path : string;
  is_dir : bool;
  depth : nat;
}.

(** The order of the sort keys [(not x[1], x[0].lower())]: tuples compare
    lexicographically, [False < True], strings by code point. *)
Definition key_leb (lower : string → string) (x y : string * bool) : bool :=
  if Bool.eqb (negb x.2) (negb y.2) then String.leb (lower x.1) (lower y.1)
  else negb (negb x.2).

Section Explorer.
Variable env : Env.

(** [sorted([(e, os.path.isdir(os.path.join(p, e))) for e in names],
            key=lambda x: (not x[1], x[0].lower()))] *)
Definition sort_entries (p : string) (names : list string) : list (string * bool) :=
  sorted (key_leb (lower env)) (map (fun e => (e, isdir env (join p e))) names).

(** [list_dir(path)] *)
Definition list_dir (path : string) : result (list (string * bool)) :=
  let parent := dirname path in
  let items :=
    if negb (String.eqb parent "") && negb (String.eqb parent path)
    then [("..", true)] else [] in
  let* names := listdir env path in
  Ok (sorted (key_leb (lower env))
        (items ++ map (fun e => (e, isdir env (join path e))) names)).

Section Flatten.
Variable expanded : gset string.

(** The [try: children = sorted(...) except PermissionError: children = []]
    of [recurse]. *)
Definition list_children (p : string) : result (list (string * bool)) :=
  match listdir env p with
  | Ok names => Ok (sort_entries p names)
  | Raise PermissionError => Ok []
  | Raise e => Raise e
  end.

(** The [try: ... except PermissionError: ...] that chooses the label of a
    child. [and] is short-circuit: [os.listdir(full_path)] is called only
    for a directory that is not in [expanded]. *)
Definition child_display (prefix connector entry fp : string) (dir : bool)
    : result string :=
  let cond :=
    if dir && negb (bool_decide (fp ∈ expanded))
    then (let* l := listdir env fp in Ok (negb (Nat.eqb (length l) 0)))
    else Ok false in
  match cond with
  | Ok true => Ok (prefix +:+ connector +:+ PLUS_ICON +:+ FOLDER_ICON +:+ " " +:+ entry)
  | Ok false =>
      Ok (prefix +:+ connector +:+ " "
          +:+ (if dir then FOLDER_ICON else FILE_ICON) +:+ " " +:+ entry)
  | Raise PermissionError =>
      Ok (prefix +:+ connector +:+ NO_ACCESS_ICON +:+ FOLDER_ICON +:+ " " +:+ entry)
  | Raise e => Raise e
  end.

(** The body of [for idx, (entry, is_dir) in enumerate(children)], with
    [n = len(children)], [rec] the recursive call and [items] the list
    the rows are appended to. *)
Definition child_step (rec : string → nat → string → list row → result (list row))
    (p : string) (d : nat) (prefix : string) (n idx : nat)
    (child : string * bool) (items : list row) : result (list row) :=
  let entry := child.1 in
  let dir := child.2 in
  let is_last := Z.eqb (Z.of_nat idx) (Z.of_nat n - 1) in
  let connector := if is_last then "└─" else "├─" in
  let fp := join p entry in
  let* dn := child_display prefix connector entry fp dir in
  let items := items ++ [Row dn fp dir d] in
  if dir && bool_decide (fp ∈ expanded) then
    let new_prefix := prefix +:+ (if is_last then "   " else "│  ") in
    rec fp (d + 1) new_prefix items
  else Ok items.

Fixpoint for_children (rec : string → nat → string → list row → result (list row))
    (p : string) (d : nat) (prefix : string) (n idx : nat)
    (children : list (string * bool)) (items : list row) : result (list row) :=
  match children with
  | [] => Ok items
  | child :: rest =>
      let* items := child_step rec p d prefix n idx child items in
      for_children rec p d prefix n (S idx) rest items
  end.

(** The rows [recurse] appends at depth 0 before it lists [p]. *)
Definition parent_link (p : string) (d : nat) (prefix : string) : list row :=
  if Nat.eqb d 0 then
    let parent := dirname p in
    if negb (String.eqb parent p)
    then [Row (prefix +:+ "├─ " +:+ FOLDER_ICON +:+ " ..") parent true d]
    else []
  else [].

(** [recurse(p, depth, prefix)], with [fuel] the nested calls still
    allowed and [items] the list of the enclosing [flatten_tree]. *)
Fixpoint recurse (fuel : nat) (p : string) (d : nat) (prefix : string)
    (items : list row) : result (list row) :=
  match fuel with
  | O => Raise RecursionError
  | S fuel' =>
      let items := items ++ parent_link p d prefix in
      let* children := list_children p in
      for_children (recurse fuel') p d prefix (length children) 0 children items
  end.

(** [flatten_tree(path, expanded)] *)
Definition flatten_tree (path : string) : result (list row) :=
  recurse (recursion_limit env) path 0 "" [].
End Flatten.

(** The variables of [main] that live across iterations of its loop, and
    the global [expanded_dirs]. *)
Record state : Type := State {
  path : string;
  expanded_dirs : gset string;
  flat_items : list row;
  selected : Z;
  offset : Z;
}.

Definition KEY_DOWN : Z := 258.
Definition KEY_UP : Z := 259.
Definition KEY_LEFT : Z := 260.
Definition KEY_RIGHT : Z := 261.
Definition KEY_ENTER : Z := 343.
Definition KEY_q : Z := 113.
Definition KEY_ESC : Z := 27.

(** [key in keys] *)
Definition key_in (key : Z) (keys : list Z) : bool :=
  existsb (Z.eqb key) keys.

(** Lines 155-158: [remove] if present, [add] otherwise. *)
Definition toggle (p : string) (e : gset string) : gset string :=
  if bool_decide (p ∈ e) then e ∖ {[p]} else e ∪ {[p]}.

(** Lines 134-144: the top of the loop body, up to [draw_menu]. [h] is the
    height [stdscr.getmaxyx()] returns. *)
Definition page_size (h : Z) : Z := (h - 2)%Z.

Definition clamp (h : Z) (s : state) : state :=
  let max_idx := (Z.of_nat (length (flat_items s)) - 1)%Z in
  let sel := if (selected s >? max_idx)%Z then max_idx else selected s in
  let off :=
    if (sel <? offset s)%Z then sel
    else if (sel >=? offset s + page_size h)%Z then (sel - page_size h + 1)%Z
    else offset s in
  State (path s) (expanded_dirs s) (flat_items s) sel off.

(** What one pass of the loop body does after it read a key: it goes on
    with new values of the variables, leaves the loop, or raises. *)
Inductive step : Type :=
| Continue (s : state)
| Break
| Crash (e : exn).

(** [flat_items = flatten_tree(path, expanded_dirs)], with the values the
    other variables have afterwards. *)
Definition refresh (pth : string) (e : gset string) (sel off : Z) : step :=
  match flatten_tree e pth with
  | Ok items => Continue (State pth e items sel off)
  | Raise x => Crash x
  end.

(** Lines 148-176: the dispatch on the key [stdscr.getch()] returned. *)
Definition handle_key (key : Z) (s : state) : step :=
  if key_in key [KEY_UP; 259%Z] && (selected s >? 0)%Z then
    Continue (State (path s) (expanded_dirs s) (flat_items s) (selected s - 1) (offset s))
  else if key_in key [KEY_DOWN; 258%Z]
          && (selected s <? Z.of_nat (length (flat_items s)) - 1)%Z then
    Continue (State (path s) (expanded_dirs s) (flat_items s) (selected s + 1) (offset s))
  else if key_in key [KEY_RIGHT; 261%Z] then
    match getitem (flat_items s) (selected s) with
    | Raise x => Crash x
    | Ok r =>
        if is_dir r then
          refresh (path s) (toggle (full_path r) (expanded_dirs s)) (selected s) (offset s)
        else Continue s
    end
  else if key_in key [KEY_LEFT; 260%Z] then
    match getitem (flat_items s) (selected s) with
    | Raise x => Crash x
    | Ok r =>
        if is_dir r && bool_decide (full_path r ∈ expanded_dirs s) then
          refresh (path s) (expanded_dirs s ∖ {[full_path r]}) (selected s) (offset s)
        else Continue s
    end
  else if key_in key [KEY_ENTER; 10%Z; 13%Z] then
    match getitem (flat_items s) (selected s) with
    | Raise x => Crash x
    | Ok r =>
        if String.eqb (basename (full_path r)) ".." then
          refresh (dirname (path s)) (expanded_dirs s) 0 0
        else if is_dir r then
          refresh (full_path r) ∅ 0 0
        else
          refresh (path s) (expanded_dirs s) 0 0
    end
  else if key_in key [KEY_q; KEY_ESC] then Break
  else Continue s.

(** Lines 127-131: [main] up to its loop. The global [expanded_dirs] is the
    empty set of line 33 when [main] is called. *)
Definition main_init (start_path : string) : result state :=
  let pth := abspath (getcwd env) start_path in
  let* items := flatten_tree ∅ pth in
  Ok (State pth ∅ items 0 0).

(** How a run ends: [main] returned, an exception escaped, or the input
    ran out with the loop about to start the pass on the state shown. *)
Inductive outcome : Type :=
| Returned
| Raised (e : exn)
| Waiting (s : state).

(** The loop of [main] on the inputs it reads: each pass reads the window
    height and one key. *)
Fixpoint main_loop (inputs : list (Z * Z)) (s : state) : outcome :=
  match inputs with
  | [] => Waiting s
  | (h, key) :: rest =>
      match handle_key key (clamp h s) with
      | Continue s' => main_loop rest s'
      | Break => Returned
      | Crash e => Raised e
      end
  end.

(** [main(stdscr, start_path)] *)
Definition main (start_path : string) (inputs : list (Z * Z)) : outcome :=
  match main_init start_path with
  | Ok s => main_loop inputs s
  | Raise e => Raised e
  end.

(** Lines 178-179: [curses.wrapper(main, os.getcwd())]. [argv] is the
    command line of the process; the script does not read it. *)
Definition script (argv : list string) (inputs : list (Z * Z)) : outcome :=
  main (getcwd env) inputs.

(** The exit status of the interpreter: 0 when the script ran to its end,
    1 when an exception escaped. *)
Definition exit_code (o : outcome) : option Z :=
  match o with
  | Returned => Some 0%Z
  | Raised _ => Some 1%Z
  | Waiting _ => None
  end.
End Explorer.

(* ===================================================================== *)
(** ** Finite filesystems, to run the program on *)
(* ===================================================================== *)

Module Snapshot.

(** What a path names: a file, a readable directory with the names
    [os.listdir] returns in that order, or a directory that cannot be
    listed. A path that is not in the table does not exist. *)
Inductive node : Type :=
| File
| Dir (names : list string)
| Locked.

Definition table : Type := list (string * node).

Fixpoint find (t : table) (p : string) : option node :=
  match t with
  | [] => None
  | (q, n) :: t' => if String.eqb q p then Some n else find t' p
  end.

Definition table_listdir (t : table) (p : string) : result (list string) :=
  match find t p with
  | Some (Dir names) => Ok names
  | Some Locked => Raise PermissionError
  | Some File | None => Raise OSError
  end.

Definition table_isdir (t : table) (p : string) : bool :=
  match find t p with
  | Some (Dir _) | Some Locked => true
  | Some File | None => false
  end.

(** [str.lower] on ASCII letters. *)
Definition lower_char (c : ascii) : ascii :=
  let n := nat_of_ascii c in
  if (65 <=? n)%nat && (n <=? 90)%nat then ascii_of_nat (n + 32) else c.

Fixpoint ascii_lower (s : string) : string :=
  match s with
  | EmptyString => EmptyString
  | String c s' => String (lower_char c) (ascii_lower s')
  end.

Definition env_of (t : table) (cwd : string) (limit : nat) : Env :=
  {| listdir := table_listdir t;
     isdir := table_isdir t;
     lower := ascii_lower;
     recursion_limit := limit;
     getcwd := cwd |}.

(** The checks that make a table a snapshot of a POSIX filesystem: the
    names of every listing are valid, and the parent of every directory
    with an absolute path is a directory of the table. *)
Definition entry_ok (t : table) (pn : string * node) : bool :=
  match pn.2 with
  | File => true
  | Dir names =>
      forallb valid_name names
      && (negb (isabs pn.1) || table_isdir t (dirname pn.1))
  | Locked => negb (isabs pn.1) || table_isdir t (dirname pn.1)
  end.

Definition table_ok (t : table) : bool := forallb (entry_ok t) t.

(** The scenario of the specification: [/r] holds an empty directory
    [dir1], a directory [dir2] with the single file [c.txt], and the files
    [a.txt] and [B.txt]. *)
Definition scenario : table :=
  [ ("/", Dir ["r"]);
    ("/r", Dir ["B.txt"; "dir2"; "a.txt"; "dir1"]);
    ("/r/dir1", Dir []);
    ("/r/dir2", Dir ["c.txt"]);
    ("/r/dir2/c.txt", File);
    ("/r/a.txt", File);
    ("/r/B.txt", File) ].

(** A directory [/r] that holds one directory that cannot be listed. *)
Definition locked_child : table :=
  [ ("/", Dir ["r"]);
    ("/r", Dir ["d"]);
    ("/r/d", Locked) ].

(** A filesystem root that holds nothing. *)
Definition empty_root : table := [ ("/", Dir []) ].

(** A filesystem root that cannot be listed. *)
Definition locked_root : table := [ ("/", Locked) ].

End Snapshot.

(* ===================================================================== *)
(** ** Slices and searches of Python, and the calls of [draw_menu] *)
(* ===================================================================== *)

Module PyStr.

(** A byte of a UTF-8 string that continues a code point: [10xxxxxx]. *)
Definition is_continuation (c : ascii) : bool :=
  let n := nat_of_ascii c in (128 <=? n)%nat && (n <? 192)%nat.

(** [len(s)] for a [str]: its code points, one for every byte that is not
    a continuation byte. *)
Fixpoint str_len (s : string) : nat :=
  match s with
  | EmptyString => 0
  | String c s' => if is_continuation c then str_len s' else S (str_len s')
  end.

(** The first [k] code points of [s]. *)
Fixpoint take_chars (k : nat) (s : string) : string :=
  match s with
  | EmptyString => EmptyString
  | String c s' =>
      if is_continuation c then String c (take_chars k s')
      else match k with
           | O => EmptyString
           | S k' => String c (take_chars k' s')
           end
  end.

(** [s[:stop]] for a [str]: a negative [stop] counts from the end. *)
Definition str_slice_to (stop : Z) (s : string) : string :=
  let n := Z.of_nat (str_len s) in
  let e := (if stop <? 0 then Z.max (stop + n) 0 else stop)%Z in
  take_chars (Z.to_nat e) s.

(** The bytes of [s] before and from byte offset [n]. *)
Fixpoint take_bytes (n : nat) (s : string) : string :=
  match n, s with
  | S n', String c s' => String c (take_bytes n' s')
  | _, _ => EmptyString
  end.

Fixpoint drop_bytes (n : nat) (s : string) : string :=
  match n, s with
  | S n', String _ s' => drop_bytes n' s'
  | _, _ => s
  end.

(** The byte offset of the first occurrence of [needle] in [s]: where
    [s.index(needle)] points, and [None] when [needle in s] is false. *)
Fixpoint find_sub (needle s : string) : option nat :=
  if String.prefix needle s then Some 0
  else match s with
       | EmptyString => None
       | String _ s' => option_map S (find_sub needle s')
       end.

(** [l[start:stop]] for a list: negative indices count from the end, and
    both ends are cut to the list. *)
Definition slice_index (n i : Z) : Z :=
  (if i <? 0 then Z.max (i + n) 0 else Z.min i n)%Z.

Definition slice {A : Type} (l : list A) (start stop : Z) : list A :=
  let n := Z.of_nat (length l) in
  let s := slice_index n start in
  let e := slice_index n stop in
  take (Z.to_nat (e - s)) (drop (Z.to_nat s) l).

End PyStr.
Import PyStr.

(** The calls [draw_menu] makes on the window, in order, when curses
    accepts each of them. [Addstr y x text pair] is
    [stdscr.addstr(y, x, text, curses.color_pair(pair))]. *)
Inductive curses_call : Type :=
| Clear
| Border
| Addstr (y x : Z) (text : string) (pair : Z)
| Refresh.

(** Lines 102-109: where a label is cut into the line drawing and the rest,
    at the first folder icon, else at the first file icon, else at its end.
    The position is a byte offset: in UTF-8 an occurrence of an icon starts
    a code point, so cutting the bytes there cuts the code points where
    [index] points. *)
Definition icon_position (display_name : string) : nat :=
  match find_sub FOLDER_ICON display_name with
  | Some pos => pos
  | None =>
      match find_sub FILE_ICON display_name with
      | Some pos => pos
      | None => String.length display_name
      end
  end.

(** Lines 95-111: the body of the loop over the visible rows, for the row
    at index [i] of the slice. *)
Definition draw_row (selected offset : Z) (i : nat) (r : row) : list curses_call :=
  let idx := (offset + Z.of_nat i)%Z in
  let item_color := if is_dir r then 2%Z else 1%Z in
  if (idx =? selected)%Z then
    [Addstr (Z.of_nat i + 1) 1 (display_name r) 3]
  else
    let pos := icon_position (display_name r) in
    let line_part := take_bytes pos (display_name r) in
    let icon_part := drop_bytes pos (display_name r) in
    [Addstr (Z.of_nat i + 1) 1 line_part 0;
     Addstr (Z.of_nat i + 1) (1 + Z.of_nat (str_len line_part)) icon_part item_color].

Fixpoint draw_rows (selected offset : Z) (i : nat) (visible : list row)
    : list curses_call :=
  match visible with
  | [] => []
  | r :: rest => draw_row selected offset i r ++ draw_rows selected offset (S i) rest
  end.

(** [draw_menu(stdscr, path, flat_items, selected, offset, page_size)], with
    [w] the width [stdscr.getmaxyx()] returns. *)
Definition draw_menu (w : Z) (path : string) (flat_items : list row)
    (selected offset page_size : Z) : list curses_call :=
  [Clear; Border; Addstr 0 1 (str_slice_to (w - 2) path) 0]
  ++ draw_rows selected offset 0 (slice flat_items offset (offset + page_size))
  ++ [Refresh].

(** Line 146: what a pass of the loop of [main] draws in a window of height
    [h] and width [w], from the state at the top of the pass. *)
Definition draw_pass (h w : Z) (s : state) : list curses_call :=
  let s' := clamp h s in
  draw_menu w (path s') (flat_items s') (selected s') (offset s') (page_size h).
(* ===================================================================== *)
(** ** The vocabulary of the properties *)
(* ===================================================================== *)

(** A listing that [recurse] accepts: the names, or [PermissionError]. *)
Definition is_listing {A : Type} (r : result A) : Prop :=
  match r with
  | Ok _ | Raise PermissionError => True
  | Raise _ => False
  end.

(** A snapshot of a POSIX filesystem: [os.listdir] returns valid names, a
    directory can be listed unless access is denied, the parent of a
    directory is a directory, and the working directory is absolute. *)
Record env_wf (env : Env) : Prop := {
  wf_names : ∀ p names, listdir env p = Ok names →
             Forall (λ e, valid_name e = true) names;
  wf_isdir : ∀ p, isdir env p = true → is_listing (listdir env p);
  wf_parent : ∀ p, isabs p = true → is_listing (listdir env p) →
              is_listing (listdir env (dirname p));
  wf_cwd : isabs (getcwd env) = true;
}.

(** No component of the path is [..]. *)
Definition no_dotdot (p : string) : Prop := ".." ∉ split_sep p.

(** A component that [normpath] keeps on an absolute path. *)
Definition plain_component (c : string) : Prop := c ≠ ".." ∧ contains_sep c = false.

(** A row of an entry [e] of a directory [q] below a normalised absolute
    root. *)
Definition child_row (env : Env) (r : row) : Prop :=
  ∃ q e, no_dotdot q ∧ isabs q = true ∧ valid_name e = true
         ∧ full_path r = join q e ∧ is_dir r = isdir env (join q e).

(** The members of the expansion set that are longer than [p]: the paths
    a call of [recurse] on [p] can still descend into. *)
Definition deeper (expanded : gset string) (p : string) : gset string :=
  filter (λ q, (String.length p < String.length q)%nat) expanded.

(** What holds of every state at the top of the loop: the rows on screen
    are the flattening of the root with the current expansion, and the root
    is a normalised absolute path. *)
Record coherent (env : Env) (s : state) : Prop := {
  coh_items : flatten_tree env (expanded_dirs s) (path s) = Ok (flat_items s);
  coh_normal : no_dotdot (path s);
  coh_abs : isabs (path s) = true;
}.

(** The rows that a successful [recurse] appends for the remaining
    [children] of [p], from index [idx] on: a child that is not an expanded
    directory gives one row, an expanded directory gives its row followed
    by the rows of its own children. *)
Inductive children_rows (env : Env) (expanded : gset string)
    : string → nat → string → nat → nat → list (string * bool) → list row → Prop :=
| cr_nil p d prefix n idx :
    children_rows env expanded p d prefix n idx [] []
| cr_leaf p d prefix n idx entry dir rest dn rows :
    child_display env expanded prefix
      (if Z.eqb (Z.of_nat idx) (Z.of_nat n - 1) then "└─" else "├─")
      entry (join p entry) dir = Ok dn →
    dir && bool_decide (join p entry ∈ expanded) = false →
    children_rows env expanded p d prefix n (S idx) rest rows →
    children_rows env expanded p d prefix n idx ((entry, dir) :: rest)
      (Row dn (join p entry) dir d :: rows)
| cr_node p d prefix n idx entry dir rest dn sub_children sub rows :
    child_display env expanded prefix
      (if Z.eqb (Z.of_nat idx) (Z.of_nat n - 1) then "└─" else "├─")
      entry (join p entry) dir = Ok dn →
    dir && bool_decide (join p entry ∈ expanded) = true →
    list_children env (join p entry) = Ok sub_children →
    children_rows env expanded (join p entry) (d + 1)
      (prefix +:+ (if Z.eqb (Z.of_nat idx) (Z.of_nat n - 1) then "   " else "│  "))
      (length sub_children) 0 sub_children sub →
    children_rows env expanded p d prefix n (S idx) rest rows →
    children_rows env expanded p d prefix n idx ((entry, dir) :: rest)
      (Row dn (join p entry) dir d :: sub ++ rows).

(** [c] is an entry of the listing of [p], with its directory flag. *)
Definition entry_of (env : Env) (p : string) (c : string * bool) : Prop :=
  ∃ names, listdir env p = Ok names ∧ c.1 ∈ names ∧ c.2 = isdir env (join p c.1).

(** [r1] and [r2] are rows of two entries of one directory, and [r1] sorts
    before [r2]: a directory before a file, and within each group by the
    lower-cased name. *)
Definition listed_in_order (env : Env) (r1 r2 : row) : Prop :=
  ∃ p e1 e2,
    entry_of env p (e1, is_dir r1) ∧ entry_of env p (e2, is_dir r2)
    ∧ full_path r1 = join p e1 ∧ full_path r2 = join p e2
    ∧ (is_dir r2 = true → is_dir r1 = true)
    ∧ (is_dir r1 = is_dir r2 → String.leb (lower env e1) (lower env e2) = true).

(** [r1] and [r2] are rows of one sibling group of a depth-annotated
    pre-order sequence, [r1] the earlier one: they have the same depth and
    no row between them is shallower. *)
Definition sibling_pair (rows : list row) (r1 r2 : row) : Prop :=
  ∃ l1 mid l2,
    rows = l1 ++ r1 :: mid ++ r2 :: l2
    ∧ depth r1 = depth r2
    ∧ Forall (λ r, (depth r1 ≤ depth r)%nat) mid.

(** The states at the top of the loop of [main], started on [start_path]. *)
Inductive reachable (env : Env) (start_path : string) : state → Prop :=
| reach_init s :
    main_init env start_path = Ok s →
    reachable env start_path s
| reach_step s h key s' :
    reachable env start_path s →
    handle_key env key (clamp h s) = Continue s' →
    reachable env start_path s'.

(** The row under the cursor. *)
Definition selected_row (s : state) : result row :=
  getitem (flat_items s) (selected s).

(** The row under the cursor is the parent link [..] of the root. *)
Definition parent_link_selected (s : state) : Prop :=
  ∃ r, selected_row s = Ok r ∧ parent_link (path s) 0 "" = [r].


(** The start path that a command line with one optional start-path
    argument selects: the argument when there is one, the working directory
    otherwise. [argv] starts with the name of the script. This follows the
    words of the specification; the script itself is [script]. *)
Definition cli_start_path (argv : list string) (cwd : string) : string :=
  match argv with
  | [_; p] => p
  | _ => cwd
  end.

(** The root a run shows when it waits for input. *)
Definition shown_root (o : outcome) : option string :=
  match o with
  | Waiting s => Some (path s)
  | _ => None
  end.

(** The keys of the Enter event. *)
Definition enter_keys : list Z := [KEY_ENTER; 10%Z; 13%Z].

(** The bounds of the specification on cursor and scroll offset, for the
    state drawn with page size [ps]. *)
Definition bounds (s : state) (ps : Z) : Prop :=
  (0 ≤ selected s ≤ Z.max 0 (Z.of_nat (length (flat_items s)) - 1))%Z
  ∧ (0 ≤ offset s)%Z
  ∧ (offset s ≤ selected s < offset s + ps)%Z.

(** The states the loop of [main] draws: a state at the top of the loop,
    clamped for the window height read in that iteration. *)
Definition drawn (env : Env) (start_path : string) (h : Z) (s : state) : Prop :=
  ∃ s0, reachable env start_path s0 ∧ s = clamp h s0.

(** The Enter event on a file as the specification words it: a no-op,
    which leaves the whole state as it is. *)
Definition enter_on_file_is_noop (env : Env) : Prop :=
  ∀ start s h r,
    reachable env start s →
    selected_row (clamp h s) = Ok r → is_dir r = false →
    handle_key env KEY_ENTER (clamp h s) = Continue (clamp h s).

(** The command line as the specification words it: the program starts at
    the path its optional argument names. *)
Definition starts_at_cli_argument (env : Env) : Prop :=
  ∀ argv inputs,
    script env argv inputs = main env (cli_start_path argv (getcwd env)) inputs.

(** The scenario of the specification, run in [/r]. *)
Definition scenario_env : Env := Snapshot.env_of Snapshot.scenario "/r" 1000.

Definition scenario_rows : list row :=
  [ Row "├─ 📁 .." "/" true 0;
    Row "├─ 📁 dir1" "/r/dir1" true 0;
    Row "├─+📁 dir2" "/r/dir2" true 0;
    Row "├─ 📄 a.txt" "/r/a.txt" false 0;
    Row "└─ 📄 B.txt" "/r/B.txt" false 0 ].

(** The state of the scenario with nothing expanded and the cursor on row
    [sel]. *)
Definition scenario_state (sel : Z) : state := State "/r" ∅ scenario_rows sel 0.

(* ===================================================================== *)
(** ** The vocabulary of determinism *)
(* ===================================================================== *)

(** The test [os.listdir(full_path)] of line 63: whether the directory has
    an entry. *)
Definition has_entries (env : Env) (p : string) : result bool :=
  let* l := listdir env p in Ok (negb (Nat.eqb (length l) 0)).





(** A directory [/r] with two files whose names differ in case only, as
    two calls of [os.listdir] may return them. *)
Definition case_pair : Snapshot.table :=
  [ ("/", Snapshot.Dir ["r"]);
    ("/r", Snapshot.Dir ["a.txt"; "A.txt"]);
    ("/r/a.txt", Snapshot.File);
    ("/r/A.txt", Snapshot.File) ].

Definition case_pair_reordered : Snapshot.table :=
  [ ("/", Snapshot.Dir ["r"]);
    ("/r", Snapshot.Dir ["A.txt"; "a.txt"]);
    ("/r/a.txt", Snapshot.File);
    ("/r/A.txt", Snapshot.File) ].


(* ===================================================================== *)
(** ** The vocabulary of further properties *)
(* ===================================================================== *)

(** [list_dir] puts the entry [..] in its result. *)
Definition lists_parent (path : string) : bool :=
  negb (String.eqb (dirname path) "") && negb (String.eqb (dirname path) path).

(** Path and directory flag of a row. *)
Definition row_entry (r : row) : string * bool := (full_path r, is_dir r).

(** The rows of a sequence at depth [d]. *)
Definition at_depth (d : nat) (rows : list row) : list row :=
  List.filter (λ r, Nat.eqb (depth r) d) rows.

(** [r2] is the row right after [r1]. *)
Definition adjacent (rows : list row) (r1 r2 : row) : Prop :=
  ∃ l1 l2, rows = l1 ++ r1 :: r2 :: l2.

(** No byte of the string is the first byte of an icon ([F0], the lead
    byte of both icons). *)
Fixpoint icon_free (s : string) : bool :=
  match s with
  | EmptyString => true
  | String c s' => negb (Ascii.eqb c "240"%char) && icon_free s'
  end.

(** The icon of a row. *)
Definition icon_of (dir : bool) : string := if dir then FOLDER_ICON else FILE_ICON.

(** The text the calls put on screen line [y], left to right in the order
    of the calls. *)
Fixpoint line_text (y : Z) (calls : list curses_call) : string :=
  match calls with
  | [] => ""
  | Addstr y' _ text _ :: rest =>
      if (y' =? y)%Z then text +:+ line_text y rest else line_text y rest
  | _ :: rest => line_text y rest
  end.

(** The inputs of passes that all read the key [key], one pass for each
    window height of [hs]. *)
Definition presses (key : Z) (hs : list Z) : list (Z * Z) :=
  map (λ h, (h, key)) hs.

(** A key no branch of the loop is bound to. *)
Definition unbound (key : Z) : bool :=
  negb (key_in key [KEY_UP; KEY_DOWN; KEY_RIGHT; KEY_LEFT; KEY_ENTER; 10%Z; 13%Z;
                    KEY_q; KEY_ESC]).

(** A path without a trailing separator, unless it is made of separators
    only: what [normpath], [dirname] and [join] with a name return. *)
Definition tidy (p : string) : Prop := all_sep p = true ∨ endswith_sep p = false.

(** A pass of the loop went on or left the loop: no exception escaped. *)
Definition no_crash (st : step) : Prop :=
  match st with
  | Crash _ => False
  | _ => True
  end.

(** A label: line drawing and marker, then the icon, a space and the name. *)
Definition label_of (art : string) (dir : bool) (name : string) : string :=
  art +:+ icon_of dir +:+ " " +:+ name.

(** The label of a row has the shape of [label_of], with an icon-free line
    drawing, the icon of the row's kind and the name of the entry the row
    shows; the parent link shows the name [..]. *)
Definition labelled (env : Env) (root : string) (r : row) (art name : string) : Prop :=
  icon_free art = true
  ∧ display_name r = label_of art (is_dir r) name
  ∧ ((parent_link root 0 "" = [r] ∧ name = "..")
     ∨ ∃ q, entry_of env q (name, is_dir r) ∧ full_path r = join q name).

(** A component [normpath] keeps: not empty and without a separator. *)
Definition solid (c : string) : Prop := c ≠ "" ∧ contains_sep c = false.
Example join_ex1 : join "/r" "dir2" = "/r/dir2". Proof. reflexivity. Qed.
Example join_ex2 : join "/" "etc" = "/etc". Proof. reflexivity. Qed.
Example dirname_ex1 : dirname "/r/dir2" = "/r". Proof. reflexivity. Qed.
Example dirname_ex2 : dirname "/r" = "/". Proof. reflexivity. Qed.
Example dirname_ex3 : dirname "/" = "/". Proof. reflexivity. Qed.
Example dirname_ex4 : dirname "/a//b" = "/a". Proof. reflexivity. Qed.
Example basename_ex1 : basename "/r/dir2" = "dir2". Proof. reflexivity. Qed.
Example basename_ex2 : basename "/a/.." = "..". Proof. reflexivity. Qed.
Example split_ex1 : split_sep "/a//b" = [""; "a"; ""; "b"]. Proof. reflexivity. Qed.
Example normpath_ex1 : normpath "/a/../b/./c/" = "/b/c". Proof. reflexivity. Qed.
Example normpath_ex2 : normpath "//a" = "//a". Proof. reflexivity. Qed.
Example normpath_ex3 : normpath "../x" = "../x". Proof. reflexivity. Qed.
Example abspath_ex1 : abspath "/home/u" "/home/u" = "/home/u". Proof. reflexivity. Qed.
Example abspath_ex2 : abspath "/home/u" "../v" = "/home/v". Proof. reflexivity. Qed.

(* ===================================================================== *)
(** ** Facts about [sorted] *)
(* ===================================================================== *)

Section SortedFacts.
Context {A : Type} (leb : A → A → bool).
Hypothesis leb_total : ∀ x y, leb x y = true ∨ leb y x = true.
Hypothesis leb_trans : ∀ x y z, leb x y = true → leb y z = true → leb x z = true.

Let le (x y : A) : Prop := leb x y = true.

Lemma insert_sorted_perm (x : A) (l : list A) :
  Permutation (insert_sorted leb x l) (x :: l).
Proof.
  induction l as [|y l IH]; simpl; [reflexivity|].
  destruct (leb x y); [reflexivity|].
  rewrite IH. apply perm_swap.
Qed.

Lemma sorted_perm (l : list A) : Permutation (sorted leb l) l.
Proof.
  induction l as [|x l IH]; simpl; [reflexivity|].
  rewrite insert_sorted_perm. by constructor.
Qed.

Lemma insert_sorted_strongly (x : A) (l : list A) :
  StronglySorted le l → StronglySorted le (insert_sorted leb x l).
Proof.
  induction 1 as [|y l Hs IH Hy]; simpl.
  - repeat constructor.
  - destruct (leb x y) eqn:Hxy.
    + constructor; [by constructor|].
      constructor; [exact Hxy|].
      eapply Forall_impl; [exact Hy|].
      intros z Hz. by eapply leb_trans.
    + constructor; [exact IH|].
      rewrite (insert_sorted_perm x l).
      constructor; [|exact Hy].
      destruct (leb_total x y) as [H|H]; [congruence|exact H].
Qed.

Lemma sorted_strongly (l : list A) : StronglySorted le (sorted leb l).
Proof.
  induction l as [|x l IH]; simpl; [constructor|].
  by apply insert_sorted_strongly.
Qed.

(** Two strongly sorted lists with the same elements are equal when the
    order is antisymmetric on these elements. *)
Lemma strongly_sorted_unique (l1 l2 : list A) :
  Permutation l1 l2 →
  StronglySorted le l1 → StronglySorted le l2 →
  (∀ x y, x ∈ l1 → y ∈ l1 → leb x y = true → leb y x = true → x = y) →
  l1 = l2.
Proof.
  revert l2. induction l1 as [|x l1 IH]; intros l2 Hp H1 H2 Hanti.
  - by apply Permutation_nil in Hp.
  - destruct l2 as [|y l2].
    { symmetry in Hp. by apply Permutation_nil in Hp. }
    apply StronglySorted_inv in H1 as [H1 Hx].
    apply StronglySorted_inv in H2 as [H2 Hy].
    assert (x = y) as ->.
    { assert (x ∈ y :: l2) as Hin1 by (rewrite <- Hp; left).
      assert (y ∈ x :: l1) as Hin2 by (rewrite Hp; left).
      apply elem_of_cons in Hin1 as [?|Hin1]; [done|].
      apply elem_of_cons in Hin2 as [?|Hin2]; [done|].
      apply Hanti; [left|by right| |].
      - rewrite Forall_forall in Hx. by apply Hx.
      - rewrite Forall_forall in Hy. by apply Hy. }
    f_equal. apply IH; [by eapply Permutation_cons_inv|done|done|].
    intros a b Ha Hb. apply Hanti; by right.
Qed.

Lemma sorted_unique (l l' : list A) :
  Permutation l l' →
  StronglySorted le l' →
  (∀ x y, x ∈ l' → y ∈ l' → leb x y = true → leb y x = true → x = y) →
  sorted leb l = l'.
Proof.
  intros Hp Hs Hanti.
  apply strongly_sorted_unique.
  - by rewrite sorted_perm.
  - apply sorted_strongly.
  - exact Hs.
  - intros x y Hx Hy. apply Hanti.
    + by rewrite <- Hp, <- (sorted_perm l).
    + by rewrite <- Hp, <- (sorted_perm l).
Qed.
End SortedFacts.

(** The order of the sort keys is total and transitive. *)
Lemma string_leb_trans (a b c : string) :
  String.leb a b = true → String.leb b c = true → String.leb a c = true.
Proof.
  intros H1 H2. apply Is_true_true.
  change (String.le a c). transitivity b; apply Is_true_true; assumption.
Qed.

Lemma key_leb_total (lw : string → string) (x y : string * bool) :
  key_leb lw x y = true ∨ key_leb lw y x = true.
Proof.
  destruct x as [a [|]], y as [b [|]]; unfold key_leb; simpl; auto using String.leb_total.
Qed.

Lemma key_leb_trans (lw : string → string) (x y z : string * bool) :
  key_leb lw x y = true → key_leb lw y z = true → key_leb lw x z = true.
Proof.
  destruct x as [a [|]], y as [b [|]], z as [c [|]]; unfold key_leb; simpl;
    try done; apply string_leb_trans.
Qed.

(* ===================================================================== *)
(** ** The structure of the flattened sequence *)
(* ===================================================================== *)

Section FlattenFacts.
Variable env : Env.
Variable expanded : gset string.

Lemma bind_ok {A B : Type} (r : result A) (k : A → result B) (b : B) :
  bind r k = Ok b → ∃ a, r = Ok a ∧ k a = Ok b.
Proof. destruct r as [a|e]; simpl; [eauto|discriminate]. Qed.

Lemma parent_link_deeper (p : string) (d : nat) (prefix : string) :
  parent_link p (d + 1) prefix = [].
Proof. unfold parent_link. by replace (d + 1) with (S d) by lia. Qed.

Lemma for_children_sound (fuel : nat) (p : string) (d : nat) (prefix : string) (n : nat) :
  (∀ q d' prefix' items out,
      recurse env expanded fuel q d' prefix' items = Ok out →
      ∃ children rows,
        list_children env q = Ok children
        ∧ children_rows env expanded q d' prefix' (length children) 0 children rows
        ∧ out = items ++ parent_link q d' prefix' ++ rows) →
  ∀ children idx items out,
    for_children env expanded (recurse env expanded fuel) p d prefix n idx children items
      = Ok out →
    ∃ rows, children_rows env expanded p d prefix n idx children rows
            ∧ out = items ++ rows.
Proof.
  intros IHf children.
  induction children as [|[entry dir] rest IH]; intros idx items out H; simpl in H.
  - exists []. split; [constructor|]. rewrite app_nil_r. congruence.
  - apply bind_ok in H as (items1 & Hstep & Hrest).
    unfold child_step in Hstep. simpl in Hstep.
    apply bind_ok in Hstep as (dn & Hdn & Hstep).
    destruct (dir && bool_decide (join p entry ∈ expanded)) eqn:Hexp.
    + apply IHf in Hstep as (sub_children & sub & Hsub & Hrows & ->).
      rewrite parent_link_deeper in Hrest. simpl in Hrest.
      apply IH in Hrest as (rows & Hrows' & ->).
      eexists. split; [eapply cr_node; eauto|].
      by rewrite <- !app_assoc.
    + injection Hstep as <-.
      apply IH in Hrest as (rows & Hrows' & ->).
      eexists. split; [eapply cr_leaf; eauto|].
      by rewrite <- !app_assoc.
Qed.

Lemma recurse_sound (fuel : nat) :
  ∀ p d prefix items out,
    recurse env expanded fuel p d prefix items = Ok out →
    ∃ children rows,
      list_children env p = Ok children
      ∧ children_rows env expanded p d prefix (length children) 0 children rows
      ∧ out = items ++ parent_link p d prefix ++ rows.
Proof.
  induction fuel as [|fuel IH]; intros p d prefix items out H; simpl in H.
  - discriminate.
  - apply bind_ok in H as (children & Hch & H).
    apply (for_children_sound fuel p d prefix _ IH) in H as (rows & Hrows & ->).
    exists children, rows. by rewrite <- app_assoc.
Qed.

Lemma flatten_tree_sound (root : string) (items : list row) :
  flatten_tree env expanded root = Ok items →
  ∃ children rows,
    list_children env root = Ok children
    ∧ children_rows env expanded root 0 "" (length children) 0 children rows
    ∧ items = parent_link root 0 "" ++ rows.
Proof.
  intros H. apply recurse_sound in H as (children & rows & ? & ? & ->). eauto.
Qed.

(** What [recurse] iterates over is sorted and comes from the listing. *)
Lemma list_children_sorted (p : string) (children : list (string * bool)) :
  list_children env p = Ok children →
  StronglySorted (λ x y, key_leb (lower env) x y = true) children.
Proof.
  unfold list_children. destruct (listdir env p) as [names|[]]; intros [= <-].
  - apply sorted_strongly; [apply key_leb_total|apply key_leb_trans].
  - constructor.
Qed.

Lemma list_children_entries (p : string) (children : list (string * bool)) :
  list_children env p = Ok children →
  Forall (entry_of env p) children.
Proof.
  unfold list_children. destruct (listdir env p) as [names|[]] eqn:Hl; intros [= <-].
  - apply Forall_forall. intros c Hc.
    unfold sort_entries in Hc. rewrite sorted_perm in Hc.
    apply list_elem_of_fmap in Hc as (e & -> & He).
    exists names. simpl. auto.
  - constructor.
Qed.
End FlattenFacts.

(* ===================================================================== *)
(** ** The order of siblings *)
(* ===================================================================== *)

Section SiblingOrder.
Variable env : Env.
Variable expanded : gset string.

Lemma children_rows_depth p d prefix n idx children rows :
  children_rows env expanded p d prefix n idx children rows →
  Forall (λ r, (d ≤ depth r)%nat) rows.
Proof.
  induction 1 as [| |? ? ? ? ? ? ? ? ? ? ? ? ? ? ? ? IH1 ? IH2]; simpl.
  - constructor.
  - constructor; [simpl; lia|done].
  - constructor; [simpl; lia|].
    apply Forall_app. split; [|done].
    eapply Forall_impl; [exact IH1|]. simpl. intros. lia.
Qed.

Lemma children_rows_head p d prefix n idx children r rows :
  children_rows env expanded p d prefix n idx children (r :: rows) →
  depth r = d.
Proof. inversion 1; by subst. Qed.

(** The rows at the depth of the group are the rows of its children. *)
Lemma children_rows_level p d prefix n idx children rows r :
  children_rows env expanded p d prefix n idx children rows →
  r ∈ rows → depth r = d →
  ∃ c, c ∈ children ∧ full_path r = join p c.1 ∧ is_dir r = c.2.
Proof.
  induction 1 as [| ? ? ? ? ? entry dir ? ? ? ? ? ? IH
                  | ? ? ? ? ? entry dir ? ? ? ? ? ? ? ? Hsub IH1 ? IH2];
    intros Hin Hd.
  - by apply elem_of_nil in Hin.
  - apply elem_of_cons in Hin as [->|Hin].
    + exists (entry, dir). split; [left|done].
    + destruct (IH Hin Hd) as (c & ? & ?). exists c. split; [by right|done].
  - apply elem_of_cons in Hin as [->|Hin].
    + exists (entry, dir). split; [left|done].
    + apply elem_of_app in Hin as [Hin|Hin].
      * apply children_rows_depth in Hsub.
        rewrite Forall_forall in Hsub. apply Hsub in Hin. lia.
      * destruct (IH2 Hin Hd) as (c & ? & ?). exists c. split; [by right|done].
Qed.

Lemma key_leb_order (e1 e2 : string) (b1 b2 : bool) :
  key_leb (lower env) (e1, b1) (e2, b2) = true →
  (b2 = true → b1 = true)
  ∧ (b1 = b2 → String.leb (lower env e1) (lower env e2) = true).
Proof.
  unfold key_leb. simpl. destruct b1, b2; simpl; intros H; split; congruence.
Qed.

(** A child row and a later row of the same group at the same depth. *)
Lemma head_before_level p d prefix n idx entry dir rest rows dn r2 :
  StronglySorted (λ x y, key_leb (lower env) x y = true) ((entry, dir) :: rest) →
  Forall (entry_of env p) ((entry, dir) :: rest) →
  children_rows env expanded p d prefix n (S idx) rest rows →
  r2 ∈ rows → depth r2 = d →
  listed_in_order env (Row dn (join p entry) dir d) r2.
Proof.
  intros Hs He Hrows Hin Hd.
  destruct (children_rows_level _ _ _ _ _ _ _ _ Hrows Hin Hd) as ([e2 b2] & Hc & Hp & Hb).
  simpl in Hp, Hb.
  apply StronglySorted_inv in Hs as [_ Hs].
  rewrite Forall_forall in Hs. pose proof (Hs _ Hc) as Hle.
  apply key_leb_order in Hle as [Hdirs Hnames].
  apply Forall_cons in He as [He1 He2].
  rewrite Forall_forall in He2. pose proof (He2 _ Hc) as Hc2.
  exists p, entry, e2. simpl. rewrite Hb. repeat split; auto.
Qed.

Lemma children_rows_siblings p d prefix n idx children rows :
  children_rows env expanded p d prefix n idx children rows →
  StronglySorted (λ x y, key_leb (lower env) x y = true) children →
  Forall (entry_of env p) children →
  ∀ r1 r2, sibling_pair rows r1 r2 → listed_in_order env r1 r2.
Proof.
  induction 1 as [| ? ? ? ? ? entry dir ? ? ? ? ? Hrows IH
                  | ? ? ? ? ? entry dir ? ? ? ? ? ? ? Hlist Hsub IH1 Hrows IH2];
    intros Hs He r1 r2 (l1 & mid & l2 & Heq & Hd & Hmid).
  - by destruct l1.
  - destruct l1 as [|x l1]; simpl in Heq; injection Heq as <- Heq.
    + eapply head_before_level; eauto.
      rewrite Heq. apply elem_of_app. right. left.
    + apply IH; [by apply StronglySorted_inv in Hs as [? _]
                |by apply Forall_cons in He as [_ ?]|].
      exists l1, mid, l2. auto.
  - assert (Hs' : StronglySorted (λ x y, key_leb (lower env) x y = true) rest)
      by (by apply StronglySorted_inv in Hs as [? _]).
    assert (He' : Forall (entry_of env p) rest)
      by (by apply Forall_cons in He as [_ ?]).
    pose proof (children_rows_depth _ _ _ _ _ _ _ Hsub) as Hdeep.
    rewrite Forall_forall in Hdeep.
    destruct l1 as [|x l1]; simpl in Heq; injection Heq as <- Heq.
    + (* the first row of the pair is the row of this child *)
      eapply head_before_level; eauto.
      assert (r2 ∈ sub ++ rows) as Hin
        by (rewrite Heq; apply elem_of_app; right; left).
      apply elem_of_app in Hin as [Hin|Hin]; [|done].
      apply Hdeep in Hin. simpl in Hd. lia.
    + assert (Hr1 : r1 ∈ sub → (S d ≤ depth r1)%nat).
      { intros Hin. apply Hdeep in Hin. lia. }
      assert (Hhead : ∀ y k, rows = y :: k → depth y = d).
      { intros y k ->. by eapply children_rows_head. }
      apply app_eq_inv in Heq as [(k & -> & Hk)|(k & -> & ->)].
      * destruct k as [|y k]; simpl in Hk.
        { (* the pair starts with the first row of the rest *)
          apply IH2; auto. exists [], mid, l2. auto. }
        injection Hk as <- Hk.
        assert (S d ≤ depth r1)%nat as Hdeep1.
        { apply Hr1. apply elem_of_app. right. left. }
        apply app_eq_inv in Hk as [(j & -> & Hj)|(j & -> & Hj)].
        -- (* a row of the rest lies between the two: it is shallower *)
           destruct j as [|z j]; simpl in Hj.
           ++ apply Hhead in Hj. lia.
           ++ apply Hhead in Hj.
              apply Forall_app in Hmid as [_ Hmid].
              apply Forall_cons in Hmid as [Hz _]. lia.
        -- destruct j as [|z j]; simpl in Hj.
           ++ symmetry in Hj. apply Hhead in Hj. lia.
           ++ injection Hj as <- _.
              (* both rows are below this child *)
              apply IH1.
              ** by eapply list_children_sorted.
              ** by eapply list_children_entries.
              ** exists l1, mid, j. auto.
      * (* both rows are among the rows of the rest *)
        apply IH2; auto. exists k, mid, l2. auto.
Qed.

(** In the rows below the parent link two siblings are in sorted order. *)
Lemma flatten_tree_siblings (root : string) (items rows : list row) (r1 r2 : row) :
  flatten_tree env expanded root = Ok items →
  items = parent_link root 0 "" ++ rows →
  sibling_pair rows r1 r2 →
  listed_in_order env r1 r2.
Proof.
  intros H Hitems Hpair.
  apply flatten_tree_sound in H as (children & rows' & Hlist & Hrows & ->).
  apply app_inv_head in Hitems as <-.
  eapply children_rows_siblings; eauto.
  - by eapply list_children_sorted.
  - by eapply list_children_entries.
Qed.
End SiblingOrder.

(* ===================================================================== *)
(** ** Facts about paths *)
(* ===================================================================== *)

Section PathFacts.

Lemma append_cons (c : ascii) (s t : string) : String c s +:+ t = String c (s +:+ t).
Proof. reflexivity. Qed.

Lemma append_nil_l (s : string) : "" +:+ s = s.
Proof. reflexivity. Qed.

Lemma append_nil_r (s : string) : s +:+ "" = s.
Proof. induction s as [|c s IH]; [done|]. by rewrite append_cons, IH. Qed.

Lemma append_assoc (a b c : string) : (a +:+ b) +:+ c = a +:+ (b +:+ c).
Proof. induction a as [|x a IH]; [done|]. by rewrite !append_cons, IH. Qed.

Lemma length_append (a b : string) :
  String.length (a +:+ b) = String.length a + String.length b.
Proof. induction a as [|x a IH]; [done|]. rewrite append_cons. simpl. by rewrite IH. Qed.

Lemma sep_eqb_refl : Ascii.eqb sep sep = true.
Proof. reflexivity. Qed.

(** *** Strings without a separator *)

Lemma valid_name_inv (e : string) :
  valid_name e = true →
  e ≠ "" ∧ contains_sep e = false ∧ e ≠ "." ∧ e ≠ "..".
Proof.
  unfold valid_name. rewrite !andb_true_iff, !negb_true_iff.
  intros [[[H1 H2] H3] H4].
  apply String.eqb_neq in H1, H3, H4. auto.
Qed.

Lemma nosep_startswith (e : string) : contains_sep e = false → startswith_sep e = false.
Proof. destruct e as [|c e]; simpl; [done|]. by intros [? ?]%orb_false_iff. Qed.

Lemma contains_sep_app (a b : string) :
  contains_sep (a +:+ b) = contains_sep a || contains_sep b.
Proof.
  induction a as [|c a IH]; [done|]. rewrite append_cons. simpl.
  by rewrite IH, orb_assoc.
Qed.

Lemma endswith_sep_inv (p : string) :
  endswith_sep p = true → ∃ a, p = a +:+ String sep "".
Proof.
  induction p as [|c p IH]; simpl; [done|].
  destruct p as [|c' p'].
  - intros ->%Ascii.eqb_eq. by exists "".
  - intros (a & ->)%IH. by exists (String c a).
Qed.

(** [join p e] for a valid name either is [e], when [p] is empty, or ends
    with a separator followed by [e]. *)
Lemma join_valid (p e : string) :
  valid_name e = true →
  (p = "" ∧ join p e = e)
  ∨ (∃ a, join p e = a +:+ String sep e ∧ (p = a ∨ p = a +:+ String sep "")).
Proof.
  intros (_ & Hsep & _)%valid_name_inv. unfold join.
  rewrite (nosep_startswith _ Hsep).
  destruct (String.eqb_spec p "") as [->|Hne]; simpl; [by left|].
  right. destruct (endswith_sep p) eqn:Hend.
  - apply endswith_sep_inv in Hend as (a & ->). exists a.
    rewrite append_assoc. auto.
  - exists p. auto.
Qed.

Lemma join_length (p e : string) :
  valid_name e = true → String.length p < String.length (join p e).
Proof.
  intros He. pose proof (valid_name_inv _ He) as (Hne & _).
  assert (0 < String.length e) by (destruct e; [done|simpl; lia]).
  destruct (join_valid p e He) as [[-> ->]|(a & -> & [->| ->])];
    rewrite ?length_append; simpl; lia.
Qed.

Lemma join_isabs (p e : string) :
  valid_name e = true → isabs p = true → isabs (join p e) = true.
Proof.
  intros He Hp.
  destruct (join_valid p e He) as [[-> _]|(a & -> & [->| ->])]; [done| |];
    destruct a; try done.
Qed.

(** *** [basename] *)

Lemma tail_part_nosep (e : string) : contains_sep e = false → tail_part e = e.
Proof.
  destruct e as [|c e]; simpl; [done|].
  intros [-> ->]%orb_false_iff. done.
Qed.

Lemma tail_part_app_sep (a e : string) :
  contains_sep e = false → tail_part (a +:+ String sep e) = e.
Proof.
  intros He. induction a as [|c a IH].
  - rewrite append_nil_l. simpl. by rewrite He.
  - rewrite append_cons. simpl.
    rewrite contains_sep_app. simpl. by rewrite orb_true_r.
Qed.

Lemma basename_join (p e : string) : valid_name e = true → basename (join p e) = e.
Proof.
  intros He. pose proof (valid_name_inv _ He) as (_ & Hsep & _).
  unfold basename.
  destruct (join_valid p e He) as [[_ ->]|(a & -> & _)].
  - by apply tail_part_nosep.
  - by apply tail_part_app_sep.
Qed.

(** *** [dirname] is not longer than its argument *)

Lemma head_part_length (p : string) : (String.length (head_part p) ≤ String.length p)%nat.
Proof.
  induction p as [|c p IH]; simpl; [done|].
  destruct (contains_sep p); simpl; [lia|].
  destruct (Ascii.eqb c sep); simpl; lia.
Qed.

Lemma rstrip_sep_length (s : string) : (String.length (rstrip_sep s) ≤ String.length s)%nat.
Proof.
  induction s as [|c s IH]; simpl; [done|].
  destruct (rstrip_sep s); simpl in *; [|lia].
  destruct (Ascii.eqb c sep); simpl; lia.
Qed.

Lemma dirname_length (p : string) : (String.length (dirname p) ≤ String.length p)%nat.
Proof.
  unfold dirname. pose proof (head_part_length p).
  destruct (_ && _); [|done].
  pose proof (rstrip_sep_length (head_part p)). lia.
Qed.

(** *** Components *)

Lemma split_sep_nonempty (p : string) : split_sep p ≠ [].
Proof.
  induction p as [|c p IH]; simpl; [done|].
  destruct (Ascii.eqb c sep); [done|]. by destruct (split_sep p).
Qed.

Lemma split_sep_cons (c : ascii) (s : string) :
  split_sep (String c s) =
    if Ascii.eqb c sep then "" :: split_sep s
    else String c (hd "" (split_sep s)) :: tl (split_sep s).
Proof.
  simpl. destruct (Ascii.eqb c sep); [done|].
  pose proof (split_sep_nonempty s). by destruct (split_sep s).
Qed.

Lemma split_sep_nosep (e : string) : contains_sep e = false → split_sep e = [e].
Proof.
  induction e as [|c e IH]; [done|].
  simpl contains_sep. intros [Hc He]%orb_false_iff.
  rewrite split_sep_cons, Hc, (IH He). done.
Qed.

Lemma split_sep_contains (p : string) : contains_sep p = true → tl (split_sep p) ≠ [].
Proof.
  induction p as [|c p IH]; [done|].
  simpl contains_sep. rewrite split_sep_cons.
  destruct (Ascii.eqb c sep); simpl.
  - intros _. apply split_sep_nonempty.
  - exact IH.
Qed.

Lemma split_sep_app_sep (a b : string) :
  split_sep (a +:+ String sep b) = split_sep a ++ split_sep b.
Proof.
  induction a as [|c a IH].
  - by rewrite append_nil_l.
  - rewrite append_cons, !split_sep_cons, IH.
    destruct (Ascii.eqb c sep); [done|].
    pose proof (split_sep_nonempty a). by destruct (split_sep a).
Qed.

Lemma split_sep_components (p c : string) : c ∈ split_sep p → contains_sep c = false.
Proof.
  revert c. induction p as [|x p IH]; intros c.
  - simpl. by intros ->%list_elem_of_singleton.
  - rewrite split_sep_cons. pose proof (split_sep_nonempty p).
    destruct (split_sep p) as [|h t]; [done|].
    destruct (Ascii.eqb x sep) eqn:Hx; simpl.
    + intros [->|Hc]%elem_of_cons; [done|]. by apply IH.
    + intros [->|Hc]%elem_of_cons.
      * simpl. rewrite Hx. apply IH. left.
      * apply IH. by right.
Qed.

Lemma tail_part_last (p : string) : tail_part p = List.last (split_sep p) "".
Proof.
  induction p as [|c p IH]; [done|].
  rewrite split_sep_cons. simpl tail_part.
  destruct (contains_sep p) eqn:Hp.
  - apply split_sep_contains in Hp.
    destruct (split_sep p) as [|h [|h' t]]; [done|done|].
    rewrite IH. by destruct (Ascii.eqb c sep).
  - rewrite (split_sep_nosep _ Hp). by destruct (Ascii.eqb c sep).
Qed.

Lemma last_elem_of {A : Type} (l : list A) (d : A) : l ≠ [] → List.last l d ∈ l.
Proof.
  induction l as [|x [|y l] IH]; [done| |]; intros _.
  - left.
  - right. by apply IH.
Qed.

Lemma basename_component (p : string) : basename p ∈ split_sep p.
Proof.
  unfold basename. rewrite tail_part_last.
  apply last_elem_of, split_sep_nonempty.
Qed.

Lemma removelast_elem_of {A : Type} (l : list A) (x : A) : x ∈ List.removelast l → x ∈ l.
Proof.
  induction l as [|y [|z l] IH]; simpl; [done| |].
  - by intros ?%elem_of_nil.
  - intros [->|H]%elem_of_cons; [left|right; by apply IH].
Qed.

Lemma head_part_nosep (p : string) : contains_sep p = false → head_part p = "".
Proof.
  destruct p as [|c p]; [done|]. simpl.
  by intros [-> ->]%orb_false_iff.
Qed.

Lemma split_head_part (p : string) :
  contains_sep p = true →
  split_sep (head_part p) = List.removelast (split_sep p) ++ [""].
Proof.
  induction p as [|c p IH]; [done|].
  simpl contains_sep. simpl head_part. intros Hc.
  destruct (contains_sep p) eqn:Hp.
  - specialize (IH eq_refl). rewrite !split_sep_cons, IH.
    pose proof (split_sep_contains _ Hp) as Ht.
    destruct (split_sep p) as [|h [|h' t]]; [done|done|].
    by destruct (Ascii.eqb c sep).
  - rewrite orb_false_r in Hc. rewrite Hc.
    rewrite (split_sep_cons c p), Hc, (split_sep_nosep _ Hp).
    apply Ascii.eqb_eq in Hc as ->. reflexivity.
Qed.

Lemma split_rstrip_sep (s : string) :
  ∃ ex, split_sep s = split_sep (rstrip_sep s) ++ ex.
Proof.
  induction s as [|c s (ex & IH)]; [by exists []|].
  simpl rstrip_sep. rewrite split_sep_cons, IH.
  destruct (rstrip_sep s) as [|c' r] eqn:Hr.
  - destruct (Ascii.eqb c sep) eqn:Hc.
    + exists ("" :: ex). done.
    + exists ex. simpl. by rewrite Hc.
  - exists ex. rewrite (split_sep_cons c (String c' r)).
    pose proof (split_sep_nonempty (String c' r)) as Hne.
    destruct (split_sep (String c' r)) as [|h t]; [done|].
    by destruct (Ascii.eqb c sep).
Qed.

(** *** Paths without a [..] component *)

Lemma dirname_components (p c : string) :
  c ∈ split_sep (dirname p) → c ∈ split_sep p ∨ c = "".
Proof.
  assert (Hhead : c ∈ split_sep (head_part p) → c ∈ split_sep p ∨ c = "").
  { destruct (contains_sep p) eqn:Hp.
    - rewrite (split_head_part _ Hp).
      intros [H|H]%elem_of_app.
      + left. by apply removelast_elem_of.
      + right. by apply list_elem_of_singleton in H.
    - rewrite (head_part_nosep _ Hp). simpl.
      intros H. right. by apply list_elem_of_singleton in H. }
  unfold dirname. destruct (_ && _); [|done].
  destruct (split_rstrip_sep (head_part p)) as (ex & Hex).
  intros Hc. apply Hhead. rewrite Hex. apply elem_of_app. by left.
Qed.

Lemma no_dotdot_dirname (p : string) : no_dotdot p → no_dotdot (dirname p).
Proof.
  unfold no_dotdot. intros Hp Hc.
  by apply dirname_components in Hc as [Hc|Hc].
Qed.

Lemma no_dotdot_basename (p : string) : no_dotdot p → basename p ≠ "..".
Proof.
  unfold no_dotdot. intros Hp Hb. apply Hp. rewrite <- Hb.
  apply basename_component.
Qed.

Lemma no_dotdot_join (p e : string) :
  valid_name e = true → no_dotdot p → no_dotdot (join p e).
Proof.
  intros He. pose proof (valid_name_inv _ He) as (_ & Hsep & _ & Hdd).
  unfold no_dotdot. intros Hp.
  destruct (join_valid p e He) as [[_ ->]|(a & -> & Ha)].
  - rewrite (split_sep_nosep _ Hsep). by intros ?%list_elem_of_singleton.
  - rewrite split_sep_app_sep, (split_sep_nosep _ Hsep).
    intros [H|H]%elem_of_app; [|by apply list_elem_of_singleton in H].
    apply Hp. destruct Ha as [->| ->]; [done|].
    rewrite split_sep_app_sep. apply elem_of_app. by left.
Qed.

(** *** Absolute paths *)

Lemma rstrip_sep_empty (s : string) : rstrip_sep s = "" → all_sep s = true.
Proof.
  induction s as [|c s IH]; [done|]. simpl.
  destruct (rstrip_sep s); [|done].
  destruct (Ascii.eqb c sep); [|done]. intros _. by apply IH.
Qed.

Lemma dirname_isabs (p : string) : isabs p = true → isabs (dirname p) = true.
Proof.
  destruct p as [|c p]; [done|]. simpl. intros Hc.
  assert (∃ h, head_part (String c p) = String c h) as (h & Hh).
  { simpl. rewrite Hc. destruct (contains_sep p); eauto. }
  unfold dirname. rewrite Hh.
  destruct (_ && _) eqn:Hcond; [|done].
  apply andb_true_iff in Hcond as [_ Hall]. apply negb_true_iff in Hall.
  simpl. destruct (rstrip_sep h) eqn:Hr; [|done].
  apply rstrip_sep_empty in Hr. simpl in Hall. by rewrite Hc, Hr in Hall.
Qed.

Lemma join_sep_components (comps : list string) (c : string) :
  Forall (λ x, contains_sep x = false) comps →
  c ∈ split_sep (join_sep comps) → c ∈ comps ∨ c = "".
Proof.
  induction comps as [|x [|y comps] IH]; intros Hns.
  - simpl. intros H. right. by apply list_elem_of_singleton in H.
  - simpl. apply Forall_cons in Hns as [Hx _].
    rewrite (split_sep_nosep _ Hx). intros H. left. done.
  - apply Forall_cons in Hns as [Hx Hns].
    change (join_sep (x :: y :: comps)) with (x +:+ String sep (join_sep (y :: comps))).
    rewrite split_sep_app_sep, (split_sep_nosep _ Hx).
    intros [H|H]%elem_of_app.
    + left. apply list_elem_of_singleton in H as ->. left.
    + destruct (IH Hns H) as [?|?]; [left; by right|by right].
Qed.

Lemma repeat_sep_components (k : nat) (s c : string) :
  c ∈ split_sep (repeat_sep k +:+ s) → c ∈ split_sep s ∨ c = "".
Proof.
  induction k as [|k IH].
  - rewrite append_nil_l. auto.
  - change (repeat_sep (S k)) with (String sep (repeat_sep k)).
    rewrite append_cons, split_sep_cons, sep_eqb_refl.
    intros [->|H]%elem_of_cons; auto.
Qed.

Lemma normpath_step_plain (k : nat) (new : list string) (comp : string) :
  k ≠ 0 → contains_sep comp = false →
  Forall plain_component new → Forall plain_component (normpath_step k new comp).
Proof.
  intros Hk Hc Hnew. unfold normpath_step.
  destruct (_ || _); [done|].
  destruct (_ || _) eqn:Hcond.
  - apply Forall_app. split; [done|]. constructor; [|constructor].
    split; [|done]. intros ->. simpl in Hcond.
    destruct k; [done|]. simpl in Hcond.
    apply andb_true_iff in Hcond as [Hlen Hlast].
    apply String.eqb_eq in Hlast.
    assert (new ≠ []) as Hne by (by destruct new).
    pose proof (last_elem_of new "" Hne) as Hin.
    rewrite Forall_forall in Hnew. apply Hnew in Hin as [Hin _]. done.
  - apply Forall_forall. intros x Hx%removelast_elem_of.
    rewrite Forall_forall in Hnew. by apply Hnew.
Qed.

Lemma normpath_fold_plain (k : nat) (comps new : list string) :
  k ≠ 0 → Forall (λ x, contains_sep x = false) comps →
  Forall plain_component new →
  Forall plain_component (fold_left (normpath_step k) comps new).
Proof.
  intros Hk. revert new. induction comps as [|c comps IH]; intros new Hc Hnew; [done|].
  apply Forall_cons in Hc as [Hc Hcs]. simpl.
  apply IH; [done|]. by apply normpath_step_plain.
Qed.

Lemma normpath_abs (p : string) :
  isabs p = true → no_dotdot (normpath p) ∧ isabs (normpath p) = true.
Proof.
  intros Hp. unfold normpath.
  destruct (String.eqb_spec p "") as [->|_]; [done|].
  unfold isabs in Hp. rewrite Hp.
  set (k := if String.prefix "//" p && negb (String.prefix "///" p) then 2 else 1).
  assert (∃ k', k = S k') as (k' & Hk) by (unfold k; destruct (_ && _); eauto).
  set (comps := fold_left (normpath_step k) (split_sep p) []).
  assert (Forall plain_component comps) as Hplain.
  { apply normpath_fold_plain; [lia| |constructor].
    apply Forall_forall. intros c. apply split_sep_components. }
  rewrite Hk. simpl repeat_sep. rewrite append_cons. simpl String.eqb.
  split; [|done].
  rewrite <- append_cons. change (String sep (repeat_sep k')) with (repeat_sep (S k')).
  intros [H|H]%repeat_sep_components; [|done].
  apply join_sep_components in H as [H|H]; [|done|].
  - rewrite Forall_forall in Hplain. apply Hplain in H as [H _]. done.
  - eapply Forall_impl; [exact Hplain|]. by intros x [_ ?].
Qed.

Lemma abspath_abs (cwd start : string) :
  isabs cwd = true →
  no_dotdot (abspath cwd start) ∧ isabs (abspath cwd start) = true.
Proof.
  intros Hcwd. unfold abspath. apply normpath_abs.
  destruct (isabs start) eqn:Hs; [done|].
  unfold join. unfold isabs in Hs. rewrite Hs.
  destruct cwd as [|c cwd]; [done|]. simpl in Hcwd.
  destruct (_ || _); rewrite append_cons; simpl; done.
Qed.
End PathFacts.

(* ===================================================================== *)
(** ** What the flattening depends on *)
(* ===================================================================== *)

Lemma sorted_ext {A : Type} (leb1 leb2 : A → A → bool) (l : list A) :
  (∀ x y, leb1 x y = leb2 x y) → sorted leb1 l = sorted leb2 l.
Proof.
  intros Hext. induction l as [|x l IH]; [done|]. simpl. rewrite IH.
  generalize (sorted leb2 l). intros m.
  induction m as [|y m IHm]; [done|]. simpl. by rewrite Hext, IHm.
Qed.

(** [recurse] reads the filesystem through the sorted children of the
    directories it visits, through the test whether a collapsed directory
    has an entry, and reads the expansion set at the paths of the children:
    two runs that agree on these return the same rows. *)
Section SameRows.
Variables env1 env2 : Env.
Variables E1 E2 : gset string.
Variable relevant : string → Prop.

Hypothesis children_same : ∀ p, relevant p → list_children env1 p = list_children env2 p.
Hypothesis entries_same : ∀ p, relevant p → has_entries env1 p = has_entries env2 p.
Hypothesis child_same : ∀ p children c,
  relevant p → list_children env1 p = Ok children → c ∈ children →
  bool_decide (join p c.1 ∈ E1) = bool_decide (join p c.1 ∈ E2)
  ∧ relevant (join p c.1).

Lemma recurse_same (fuel : nat) :
  ∀ p d prefix items, relevant p →
    recurse env1 E1 fuel p d prefix items = recurse env2 E2 fuel p d prefix items.
Proof.
  induction fuel as [|fuel IH]; intros p d prefix items Hp; [done|].
  simpl. rewrite <- (children_same p Hp).
  destruct (list_children env1 p) as [children|e] eqn:Hch; [|done].
  simpl. generalize (length children) at 1 2. intros n.
  assert (Hall : ∀ c, c ∈ children →
                      bool_decide (join p c.1 ∈ E1) = bool_decide (join p c.1 ∈ E2)
                      ∧ relevant (join p c.1)).
  { intros c Hc. by apply (child_same p children). }
  clear Hch. generalize 0. generalize (items ++ parent_link p d prefix).
  induction children as [|[entry dir] rest IHc]; intros acc idx; [done|].
  destruct (Hall (entry, dir)) as (Hexp & Hrel); [left|]. simpl in Hexp, Hrel.
  simpl. unfold child_step. simpl.
  assert (child_display env1 E1 prefix
            (if Z.eqb (Z.of_nat idx) (Z.of_nat n - 1) then "└─" else "├─")
            entry (join p entry) dir
          = child_display env2 E2 prefix
            (if Z.eqb (Z.of_nat idx) (Z.of_nat n - 1) then "└─" else "├─")
            entry (join p entry) dir) as <-.
  { pose proof (entries_same _ Hrel) as He. unfold has_entries in He.
    unfold child_display. by rewrite Hexp, He. }
  destruct (child_display env1 E1 _ _ _ _ _) as [dn|e]; [|done].
  simpl. rewrite <- Hexp.
  destruct (dir && bool_decide (join p entry ∈ E1)).
  - rewrite <- (IH _ _ _ _ Hrel).
    destruct (recurse env1 E1 fuel _ _ _ _) as [acc'|e]; [|done].
    simpl. apply IHc. intros c Hc. apply Hall. by right.
  - simpl. apply IHc. intros c Hc. apply Hall. by right.
Qed.
End SameRows.

Section Agreement.
Variables env1 env2 : Env.
Variables E1 E2 : gset string.
Variable relevant : string → Prop.

Hypothesis lower_agree : ∀ s, lower env1 s = lower env2 s.
Hypothesis listdir_agree : ∀ p, relevant p → listdir env1 p = listdir env2 p.
Hypothesis child_agree : ∀ p names e,
  relevant p → listdir env1 p = Ok names → e ∈ names →
  isdir env1 (join p e) = isdir env2 (join p e)
  ∧ bool_decide (join p e ∈ E1) = bool_decide (join p e ∈ E2)
  ∧ relevant (join p e).

Lemma list_children_agree (p : string) :
  relevant p → list_children env1 p = list_children env2 p.
Proof.
  intros Hp. unfold list_children. rewrite <- (listdir_agree p Hp).
  destruct (listdir env1 p) as [names|e] eqn:Hl; [|done].
  f_equal. unfold sort_entries.
  rewrite (sorted_ext (key_leb (lower env1)) (key_leb (lower env2))).
  - f_equal. apply map_ext_in. intros e He. f_equal.
    apply list_elem_of_In in He. by destruct (child_agree p names e Hp Hl He).
  - intros x y. unfold key_leb. by rewrite !lower_agree.
Qed.

Lemma list_children_names (p : string) (names : list string)
    (children : list (string * bool)) (c : string * bool) :
  listdir env1 p = Ok names → list_children env1 p = Ok children →
  c ∈ children → c.1 ∈ names.
Proof.
  intros Hl Hc Hin. apply list_children_entries in Hc.
  rewrite Forall_forall in Hc. destruct (Hc _ Hin) as (names' & Hl' & ? & _).
  congruence.
Qed.

Lemma recurse_agree (fuel : nat) :
  ∀ p d prefix items, relevant p →
    recurse env1 E1 fuel p d prefix items = recurse env2 E2 fuel p d prefix items.
Proof.
  apply (recurse_same env1 env2 E1 E2 relevant).
  - apply list_children_agree.
  - intros p Hp. unfold has_entries. by rewrite (listdir_agree p Hp).
  - intros p children c Hp Hch Hc.
    unfold list_children in Hch.
    destruct (listdir env1 p) as [names|[]] eqn:Hl; try discriminate.
    + assert (c.1 ∈ names) as Hin.
      { eapply list_children_names; [exact Hl| |exact Hc].
        unfold list_children. by rewrite Hl. }
      by destruct (child_agree p names c.1 Hp Hl Hin) as (_ & ? & ?).
    + injection Hch as <-. by apply elem_of_nil in Hc.
Qed.
End Agreement.

(* ===================================================================== *)
(** ** Rows and states of a run *)
(* ===================================================================== *)

Lemma getitem_elem_of {A : Type} (l : list A) (i : Z) (x : A) :
  getitem l i = Ok x → x ∈ l.
Proof.
  unfold getitem. destruct (_ || _); [done|].
  destruct (l !! _) eqn:Hl; [|done]. intros [= <-].
  by eapply list_elem_of_lookup_2.
Qed.

Section RowFacts.
Variable env : Env.
Hypothesis Hwf : env_wf env.

Lemma entry_valid (p : string) (c : string * bool) :
  entry_of env p c → valid_name c.1 = true.
Proof.
  intros (names & Hl & Hin & _).
  pose proof (wf_names env Hwf p names Hl) as Hv.
  rewrite Forall_forall in Hv. by apply Hv.
Qed.

Lemma children_rows_child_rows expanded p d prefix n idx children rows :
  children_rows env expanded p d prefix n idx children rows →
  no_dotdot p → isabs p = true →
  Forall (entry_of env p) children →
  Forall (child_row env) rows.
Proof.
  induction 1 as [| ? ? ? ? ? entry dir ? ? ? ? ? ? IH
                  | ? ? ? ? ? entry dir ? ? ? ? ? ? ? Hlist Hsub IH1 ? IH2];
    intros Hnd Habs He.
  - constructor.
  - apply Forall_cons in He as [He1 He].
    constructor; [|by apply IH].
    pose proof (entry_valid _ _ He1) as Hv.
    destruct He1 as (? & ? & ? & Hd). by exists p, entry.
  - apply Forall_cons in He as [He1 He].
    pose proof (entry_valid _ _ He1) as Hv. simpl in Hv.
    constructor; [|apply Forall_app; split].
    + destruct He1 as (? & ? & ? & Hd). by exists p, entry.
    + apply IH1; [by apply no_dotdot_join|by apply join_isabs|].
      by eapply list_children_entries.
    + by apply IH2.
Qed.

Lemma child_row_basename (r : row) : child_row env r → basename (full_path r) ≠ "..".
Proof.
  intros (q & e & _ & _ & Hv & -> & _). rewrite (basename_join _ _ Hv).
  by apply valid_name_inv in Hv as (_ & _ & _ & ?).
Qed.

Lemma child_row_normal (r : row) :
  child_row env r → no_dotdot (full_path r) ∧ isabs (full_path r) = true.
Proof.
  intros (q & e & ? & ? & Hv & -> & _).
  split; [by apply no_dotdot_join|by apply join_isabs].
Qed.

(** A row of a flattening is the parent link or the row of an entry. *)
Lemma flatten_tree_rows expanded root items r :
  no_dotdot root → isabs root = true →
  flatten_tree env expanded root = Ok items →
  r ∈ items →
  parent_link root 0 "" = [r] ∨ child_row env r.
Proof.
  intros Hnd Habs H Hin.
  apply flatten_tree_sound in H as (children & rows & Hlist & Hrows & ->).
  apply elem_of_app in Hin as [Hin|Hin].
  - left. unfold parent_link in *. simpl in *.
    destruct (negb _); [|by apply elem_of_nil in Hin].
    by apply list_elem_of_singleton in Hin as ->.
  - right.
    eapply children_rows_child_rows in Hrows; eauto.
    + rewrite Forall_forall in Hrows. by apply Hrows.
    + by eapply list_children_entries.
Qed.

Lemma parent_link_inv (root : string) (r : row) :
  parent_link root 0 "" = [r] →
  full_path r = dirname root ∧ is_dir r = true ∧ depth r = 0
  ∧ dirname root ≠ root.
Proof.
  unfold parent_link. simpl.
  destruct (String.eqb_spec (dirname root) root); simpl; [done|].
  by intros [= <-].
Qed.

Lemma flatten_tree_ok_inv expanded root items :
  flatten_tree env expanded root = Ok items →
  0 < recursion_limit env ∧ is_listing (listdir env root).
Proof.
  unfold flatten_tree. destruct (recursion_limit env) as [|fuel]; [done|].
  simpl. intros H. split; [lia|].
  apply bind_ok in H as (children & Hch & _).
  unfold list_children in Hch.
  destruct (listdir env root) as [|[]]; simpl in *; done.
Qed.

(** *** The recursion ends

    Every nested call of [recurse] is on a path of the expansion set that is
    longer than the path of the call around it: the calls nest no deeper
    than the expansion set has members, and a recursion limit above that is
    never reached. *)

Lemma deeper_join expanded p e :
  valid_name e = true → join p e ∈ expanded →
  (size (deeper expanded (join p e)) < size (deeper expanded p))%nat.
Proof.
  intros He Hin. pose proof (join_length p e He) as Hlen.
  apply subset_size. apply strict_spec_alt. split.
  - intros q [Hq ?]%elem_of_filter. apply elem_of_filter. split; [lia|done].
  - intros Heq.
    assert (join p e ∈ deeper expanded (join p e)) as [Hlt _]%elem_of_filter.
    { rewrite Heq. by apply elem_of_filter. }
    lia.
Qed.

Lemma recurse_total expanded (fuel : nat) :
  ∀ p d prefix items,
    is_listing (listdir env p) →
    (size (deeper expanded p) < fuel)%nat →
    ∃ out, recurse env expanded fuel p d prefix items = Ok out.
Proof.
  induction fuel as [|fuel IH]; intros p d prefix items Hl Hsize; [lia|].
  simpl. destruct (list_children env p) as [children|e] eqn:Hch.
  2:{ unfold list_children in Hch.
      destruct (listdir env p) as [|[]]; simpl in *; done. }
  simpl. apply list_children_entries in Hch.
  generalize (length children). intros n.
  generalize 0. generalize (items ++ parent_link p d prefix).
  induction children as [|[entry dir] rest IHc]; intros acc idx; [by eexists|].
  apply Forall_cons in Hch as [He Hch].
  pose proof (entry_valid _ _ He) as Hv. simpl in Hv.
  destruct He as (names & _ & _ & Hdir). simpl in Hdir.
  assert (dir = true → is_listing (listdir env (join p entry))) as Hsub.
  { intros ->. by apply (wf_isdir env Hwf). }
  simpl. unfold child_step, child_display. simpl.
  destruct dir; simpl.
  - specialize (Hsub eq_refl).
    destruct (decide (join p entry ∈ expanded)) as [Hin|Hin].
    + rewrite (bool_decide_eq_true_2 _ Hin). simpl.
      destruct (IH (join p entry) (d + 1) (prefix +:+ (if (Z.of_nat idx =? Z.of_nat n - 1)%Z
                                                       then "   " else "│  "))
                  (acc ++ [Row (prefix +:+ (if (Z.of_nat idx =? Z.of_nat n - 1)%Z
                                            then "└─" else "├─")
                                +:+ " " +:+ FOLDER_ICON +:+ " " +:+ entry)
                               (join p entry) true d]) Hsub) as (out & ->).
      { pose proof (deeper_join expanded p entry Hv Hin). lia. }
      simpl. by apply IHc.
    + rewrite (bool_decide_eq_false_2 _ Hin). simpl.
      destruct (listdir env (join p entry)) as [l|[]]; simpl in *; try done.
      * destruct (negb _); simpl; by apply IHc.
      * by apply IHc.
  - by apply IHc.
Qed.

(** In a snapshot, the flattening of a directory returns its rows when the
    recursion limit is above the size of the expansion set. *)
Lemma flatten_tree_total expanded (root : string) :
  is_listing (listdir env root) →
  (size expanded < recursion_limit env)%nat →
  ∃ items, flatten_tree env expanded root = Ok items.
Proof.
  intros Hl Hsize. apply recurse_total; [done|].
  eapply Nat.le_lt_trans; [|exact Hsize].
  apply subseteq_size. intros q [_ ?]%elem_of_filter. done.
Qed.

(** *** The invariant of the loop *)

Lemma clamp_coherent (h : Z) (s : state) : coherent env s → coherent env (clamp h s).
Proof. intros [? ? ?]. by constructor. Qed.

Lemma refresh_coherent pth e sel off s' :
  no_dotdot pth → isabs pth = true →
  refresh env pth e sel off = Continue s' → coherent env s'.
Proof.
  intros Hnd Habs. unfold refresh.
  destruct (flatten_tree env e pth) as [items|] eqn:Hf; [|done].
  intros [= <-]. by constructor.
Qed.

Lemma selected_row_cases (s : state) (r : row) :
  coherent env s → getitem (flat_items s) (selected s) = Ok r →
  parent_link (path s) 0 "" = [r] ∨ child_row env r.
Proof.
  intros [Hf Hnd Habs] Hr. apply getitem_elem_of in Hr.
  by eapply flatten_tree_rows.
Qed.

Lemma selected_row_basename (s : state) (r : row) :
  coherent env s → getitem (flat_items s) (selected s) = Ok r →
  String.eqb (basename (full_path r)) ".." = false.
Proof.
  intros Hc Hr. apply String.eqb_neq.
  destruct (selected_row_cases s r Hc Hr) as [Hp|Hp].
  - apply parent_link_inv in Hp as (-> & _).
    apply no_dotdot_basename, no_dotdot_dirname. by destruct Hc.
  - by apply child_row_basename.
Qed.

Lemma handle_key_coherent (key : Z) (s s' : state) :
  coherent env s → handle_key env key s = Continue s' → coherent env s'.
Proof.
  intros Hc. pose proof Hc as [Hf Hnd Habs]. unfold handle_key.
  destruct (_ && _); [intros [= <-]; by constructor|].
  destruct (_ && _); [intros [= <-]; by constructor|].
  destruct (key_in key [KEY_RIGHT; _]).
  { destruct (getitem _ _) as [r|] eqn:Hr; [|done].
    destruct (is_dir r); [by apply refresh_coherent|by intros [= <-]]. }
  destruct (key_in key [KEY_LEFT; _]).
  { destruct (getitem _ _) as [r|] eqn:Hr; [|done].
    destruct (_ && _); [by apply refresh_coherent|by intros [= <-]]. }
  destruct (key_in key [KEY_ENTER; _; _]).
  { destruct (getitem _ _) as [r|] eqn:Hr; [|done].
    rewrite (selected_row_basename s r Hc Hr).
    destruct (is_dir r); [|by apply refresh_coherent].
    destruct (selected_row_cases s r Hc Hr) as [Hp|Hp].
    - apply parent_link_inv in Hp as (-> & _).
      apply refresh_coherent; [by apply no_dotdot_dirname|by apply dirname_isabs].
    - apply child_row_normal in Hp as [? ?]. by apply refresh_coherent. }
  destruct (key_in key [KEY_q; _]); [done|]. by intros [= <-].
Qed.

Lemma reachable_coherent (start : string) (s : state) :
  reachable env start s → coherent env s.
Proof.
  induction 1 as [s Hinit|s h key s' _ IH Hstep].
  - unfold main_init in Hinit.
    apply bind_ok in Hinit as (items & Hf & [= <-]).
    destruct (abspath_abs (getcwd env) start (wf_cwd env Hwf)).
    by constructor.
  - eapply handle_key_coherent; [|exact Hstep]. by apply clamp_coherent.
Qed.
End RowFacts.

(* ===================================================================== *)
(** ** Finite filesystems are snapshots *)
(* ===================================================================== *)

Section SnapshotFacts.
Import Snapshot.

Lemma find_elem_of (t : table) (p : string) (n : node) :
  find t p = Some n → (p, n) ∈ t.
Proof.
  induction t as [|[q m] t IH]; simpl; [done|].
  destruct (String.eqb_spec q p) as [->|_].
  - intros [= ->]. left.
  - intros H. right. by apply IH.
Qed.

Lemma table_isdir_listing (t : table) (p : string) :
  table_isdir t p = true ↔ is_listing (table_listdir t p).
Proof.
  unfold table_isdir, table_listdir.
  destruct (find t p) as [[| |]|]; simpl; split; done.
Qed.

Lemma env_of_wf (t : table) (cwd : string) (limit : nat) :
  table_ok t = true → isabs cwd = true → env_wf (env_of t cwd limit).
Proof.
  intros Hok Hcwd. unfold table_ok in Hok.
  rewrite forallb_forall in Hok.
  constructor; simpl; [| | |done].
  - intros p names Hl. unfold table_listdir in Hl.
    destruct (find t p) as [[| |]|] eqn:Hf; try done.
    injection Hl as ->. apply find_elem_of, list_elem_of_In, Hok in Hf.
    unfold entry_ok in Hf. simpl in Hf.
    apply andb_true_iff in Hf as [Hf _].
    rewrite forallb_forall in Hf. apply Forall_forall.
    intros e He. by apply Hf, list_elem_of_In.
  - intros p. apply table_isdir_listing.
  - intros p Habs Hl. apply table_isdir_listing.
    unfold table_listdir in Hl.
    destruct (find t p) as [[| |]|] eqn:Hf; try done;
      apply find_elem_of, list_elem_of_In, Hok in Hf;
      unfold entry_ok in Hf; simpl in Hf; rewrite Habs in Hf; simpl in Hf.
    + by apply andb_true_iff in Hf as [_ Hf].
    + done.
Qed.
End SnapshotFacts.

(* ===================================================================== *)
(** ** The properties of the specification *)
(* ===================================================================== *)

Import Snapshot.

(** *** Directories that cannot be listed *)

(** A collapsed directory whose listing is denied gets one row with the
    no-access marker, and [recurse] is not called on it. *)
Lemma denied_collapsed_row env expanded rec p d prefix n idx entry items :
  listdir env (join p entry) = Raise PermissionError →
  join p entry ∉ expanded →
  child_step env expanded rec p d prefix n idx (entry, true) items
  = Ok (items ++ [Row (prefix +:+ (if Z.eqb (Z.of_nat idx) (Z.of_nat n - 1)
                                    then "└─" else "├─")
                        +:+ NO_ACCESS_ICON +:+ FOLDER_ICON +:+ " " +:+ entry)
                       (join p entry) true d]).
Proof.
  intros Hl Hexp. unfold child_step, child_display. simpl.
  rewrite (bool_decide_eq_false_2 _ Hexp). simpl. by rewrite Hl.
Qed.

(** An expanded directory is labelled without listing it: when its listing
    is denied it gets the label of a plain folder, and the call of
    [recurse] on it adds no row. *)
Lemma denied_expanded_row env expanded fuel p d prefix n idx entry items :
  listdir env (join p entry) = Raise PermissionError →
  join p entry ∈ expanded →
  child_step env expanded (recurse env expanded (S fuel)) p d prefix n idx
    (entry, true) items
  = Ok (items ++ [Row (prefix +:+ (if Z.eqb (Z.of_nat idx) (Z.of_nat n - 1)
                                    then "└─" else "├─")
                        +:+ " " +:+ FOLDER_ICON +:+ " " +:+ entry)
                       (join p entry) true d]).
Proof.
  intros Hl Hexp. unfold child_step, child_display. simpl.
  rewrite (bool_decide_eq_true_2 _ Hexp). simpl.
  rewrite parent_link_deeper, app_nil_r.
  unfold list_children. by rewrite Hl.
Qed.

(** C1 (the code departs from the claim). In [/r], whose only entry [d] is
    a directory that [os.listdir] refuses with [PermissionError], the row of
    [d] carries the no-access marker while [d] is collapsed; once [/r/d] is
    in the expansion set the same row is drawn as a plain folder, without
    the no-access marker. *)
Theorem C1_expanded_denied_directory_drawn_plain :
  listdir (env_of locked_child "/r" 1000) "/r/d" = Raise PermissionError
  ∧ flatten_tree (env_of locked_child "/r" 1000) ∅ "/r"
    = Ok [Row "├─ 📁 .." "/" true 0; Row "└─Θ📁 d" "/r/d" true 0]
  ∧ flatten_tree (env_of locked_child "/r" 1000) {["/r/d"]} "/r"
    = Ok [Row "├─ 📁 .." "/" true 0; Row "└─ 📁 d" "/r/d" true 0].
Proof. repeat split; vm_compute; reflexivity. Qed.

(** *** Bounds of cursor and scroll offset *)

Ltac case_Z_tests :=
  rewrite ?Z.gtb_ltb, ?Z.geb_leb;
  repeat match goal with
    | |- context [(?a <? ?b)%Z] => destruct (Z.ltb_spec a b)
    | |- context [(?a <=? ?b)%Z] => destruct (Z.leb_spec a b)
    end.

Ltac continue_inv :=
  match goal with
  | |- Continue _ = Continue ?s → _ =>
      let Heq := fresh "Heq" in
      intros Heq; injection Heq as Heq; subst s
  end.

Lemma clamp_bounds (h : Z) (s : state) :
  flat_items s ≠ [] → (0 ≤ selected s)%Z → (0 ≤ offset s)%Z → (1 ≤ page_size h)%Z →
  bounds (clamp h s) (page_size h).
Proof.
  intros Hne Hsel Hoff Hps. unfold bounds, clamp. simpl.
  assert (0 < Z.of_nat (length (flat_items s)))%Z.
  { destruct (flat_items s); [done|]. simpl. lia. }
  case_Z_tests; lia.
Qed.

(** While rows are shown, cursor and offset are not negative at the top of
    the loop. *)
Lemma reachable_nonneg env start s :
  reachable env start s →
  flat_items s ≠ [] → (0 ≤ selected s)%Z ∧ (0 ≤ offset s)%Z.
Proof.
  induction 1 as [s Hinit|s h key s' _ IH Hstep].
  - unfold main_init in Hinit. apply bind_ok in Hinit as (items & _ & [= <-]).
    simpl. lia.
  - intros Hne.
    assert (flat_items s ≠ [] → (0 ≤ selected (clamp h s))%Z ∧ (0 ≤ offset (clamp h s))%Z)
      as Hclamp.
    { intros Hs. destruct (IH Hs) as [? ?].
      assert (1 ≤ page_size h ∨ page_size h < 1)%Z as [Hps|Hps] by lia.
      - destruct (clamp_bounds h s Hs) as (? & ? & ?); lia.
      - unfold clamp. simpl.
        assert (0 < Z.of_nat (length (flat_items s)))%Z.
        { destruct (flat_items s); [done|]. simpl. lia. }
        case_Z_tests; lia. }
    revert Hstep. unfold handle_key, refresh.
    destruct (key_in key [KEY_UP; _] && _) eqn:Hup.
    { continue_inv. simpl in *.
      apply andb_true_iff in Hup as [_ Hup].
      destruct (Hclamp Hne). split; lia. }
    destruct (key_in key [KEY_DOWN; _] && _) eqn:Hdown.
    { continue_inv. simpl in *. specialize (Hclamp Hne). lia. }
    assert (∀ r, getitem (flat_items (clamp h s)) (selected (clamp h s)) = Ok r →
                 flat_items s ≠ []) as Hrow.
    { intros r Hr%getitem_elem_of Hnil. simpl in Hr. rewrite Hnil in Hr.
      by apply elem_of_nil in Hr. }
    destruct (key_in key [KEY_RIGHT; _]).
    { destruct (getitem _ _) as [r|] eqn:Hr; [|done].
      specialize (Hclamp (Hrow r eq_refl)).
      destruct (is_dir r); [|by continue_inv].
      destruct (flatten_tree _ _ _); [|done]. by continue_inv. }
    destruct (key_in key [KEY_LEFT; _]).
    { destruct (getitem _ _) as [r|] eqn:Hr; [|done].
      specialize (Hclamp (Hrow r eq_refl)).
      destruct (is_dir r && _); [|by continue_inv].
      destruct (flatten_tree _ _ _); [|done]. by continue_inv. }
    destruct (key_in key [KEY_ENTER; _; _]).
    { destruct (getitem _ _) as [r|] eqn:Hr; [|done].
      destruct (String.eqb _ _); [|destruct (is_dir r)];
        (destruct (flatten_tree _ _ _); [|done]);
        continue_inv; simpl; lia. }
    destruct (key_in key [KEY_q; _]); [done|].
    continue_inv. by apply Hclamp.
Qed.

(** Where at least one row is shown and the window leaves room for one row,
    every state the loop draws is within the bounds. *)
Lemma bounds_invariant_nonempty env start h s :
  drawn env start h s →
  flat_items s ≠ [] → (1 ≤ page_size h)%Z →
  bounds s (page_size h).
Proof.
  intros (s0 & Hreach & ->) Hne Hps. simpl in Hne.
  destruct (reachable_nonneg env start s0 Hreach Hne).
  by apply clamp_bounds.
Qed.

(** C2 (the code departs from the claim). Started in a filesystem root
    with no entry, or one that cannot be listed, [flatten_tree] returns no
    row; the first pass of the loop then sets the cursor and the scroll
    offset to -1, below the bound 0 of the claim, and the Enter key raises
    [IndexError]. *)
Theorem C2_empty_root_cursor_negative :
  main_init (env_of empty_root "/" 1000) "/" = Ok (State "/" ∅ [] 0 0)
  ∧ main_init (env_of locked_root "/" 1000) "/" = Ok (State "/" ∅ [] 0 0)
  ∧ clamp 24 (State "/" ∅ [] 0 0) = State "/" ∅ [] (-1) (-1)
  ∧ ¬ bounds (clamp 24 (State "/" ∅ [] 0 0)) (page_size 24)
  ∧ script (env_of empty_root "/" 1000) [] [(24%Z, KEY_ENTER)] = Raised IndexError.
Proof.
  split; [vm_compute; reflexivity|].
  split; [vm_compute; reflexivity|].
  split; [reflexivity|].
  split; [|vm_compute; reflexivity].
  unfold bounds. simpl. lia.
Qed.

(** A window of two lines leaves no room for a row: the page size is 0 and
    the first pass of the loop puts the scroll offset past the cursor. *)
Example tiny_window_offset :
  clamp 2 (scenario_state 0) = State "/r" ∅ scenario_rows 0 1
  ∧ ¬ bounds (clamp 2 (scenario_state 0)) (page_size 2).
Proof.
  split; [reflexivity|]. unfold bounds. simpl. lia.
Qed.

(** *** Determinism *)







Example listing_order_shows :
  flatten_tree (Snapshot.env_of case_pair "/r" 1000) ∅ "/r"
  = Ok [ Row "├─ 📁 .." "/" true 0;
         Row "├─ 📄 a.txt" "/r/a.txt" false 0;
         Row "└─ 📄 A.txt" "/r/A.txt" false 0 ]
  ∧ flatten_tree (Snapshot.env_of case_pair_reordered "/r" 1000) ∅ "/r"
    = Ok [ Row "├─ 📁 .." "/" true 0;
           Row "├─ 📄 A.txt" "/r/A.txt" false 0;
           Row "└─ 📄 a.txt" "/r/a.txt" false 0 ].
Proof. split; vm_compute; reflexivity. Qed.





(** *** Sibling order *)

(** C6. Whatever the order of the listings, in the rows that follow the
    parent link any two rows of one sibling group are rows of entries of one
    directory in sorted order: a directory never follows a file, and within
    directories and within files the lower-cased names do not decrease. *)
Theorem C6_siblings_sorted env expanded root items rows r1 r2 :
  flatten_tree env expanded root = Ok items →
  items = parent_link root 0 "" ++ rows →
  sibling_pair rows r1 r2 →
  listed_in_order env r1 r2.
Proof. apply flatten_tree_siblings. Qed.

(** *** Toggling twice *)

Lemma elem_of_toggle (p q : string) (E : gset string) :
  q ∈ toggle p E ↔ (if bool_decide (q = p) then q ∉ E else q ∈ E).
Proof.
  unfold toggle.
  destruct (decide (p ∈ E)) as [Hp|Hp];
    [rewrite (bool_decide_eq_true_2 _ Hp), elem_of_difference
    |rewrite (bool_decide_eq_false_2 _ Hp), elem_of_union];
    rewrite elem_of_singleton;
    destruct (decide (q = p)) as [->|Hq];
    [rewrite (bool_decide_eq_true_2 _ eq_refl)|rewrite (bool_decide_eq_false_2 _ Hq)
    |rewrite (bool_decide_eq_true_2 _ eq_refl)|rewrite (bool_decide_eq_false_2 _ Hq)];
    tauto.
Qed.

Lemma toggle_toggle (p : string) (E : gset string) : toggle p (toggle p E) = E.
Proof.
  apply set_eq. intros q. rewrite (elem_of_toggle p q (toggle p E)).
  destruct (decide (q = p)) as [->|Hq].
  - rewrite (bool_decide_eq_true_2 _ eq_refl), elem_of_toggle.
    rewrite (bool_decide_eq_true_2 _ eq_refl).
    split; [apply dec_stable|auto].
  - rewrite (bool_decide_eq_false_2 _ Hq), elem_of_toggle.
    by rewrite (bool_decide_eq_false_2 _ Hq).
Qed.

(** C7. Toggling a path twice gives back the expansion set, with the
    membership of every path as before, and the flattening of any root is
    what it was before the first toggle. *)
Theorem C7_toggle_twice env (E : gset string) p root :
  toggle p (toggle p E) = E
  ∧ (∀ q, q ∈ toggle p (toggle p E) ↔ q ∈ E)
  ∧ flatten_tree env (toggle p (toggle p E)) root = flatten_tree env E root.
Proof. rewrite toggle_toggle. done. Qed.

Lemma C6_siblings_sorted_witness :
  let rows := [ Row "├─ 📁 dir1" "/r/dir1" true 0;
                Row "├─ 📁 dir2" "/r/dir2" true 0;
                Row "│  └─ 📄 c.txt" "/r/dir2/c.txt" false 1;
                Row "├─ 📄 a.txt" "/r/a.txt" false 0;
                Row "└─ 📄 B.txt" "/r/B.txt" false 0 ] in
  let r1 := Row "├─ 📁 dir1" "/r/dir1" true 0 in
  let r2 := Row "├─ 📄 a.txt" "/r/a.txt" false 0 in
  flatten_tree scenario_env {["/r/dir2"]} "/r" = Ok (Row "├─ 📁 .." "/" true 0 :: rows)
  ∧ Row "├─ 📁 .." "/" true 0 :: rows = parent_link "/r" 0 "" ++ rows
  ∧ sibling_pair rows r1 r2
  ∧ listed_in_order scenario_env r1 r2.
Proof.
  intros rows r1 r2.
  assert (H1 : flatten_tree scenario_env {["/r/dir2"]} "/r"
               = Ok (Row "├─ 📁 .." "/" true 0 :: rows))
    by (vm_compute; reflexivity).
  assert (H2 : Row "├─ 📁 .." "/" true 0 :: rows = parent_link "/r" 0 "" ++ rows)
    by reflexivity.
  assert (H3 : sibling_pair rows r1 r2).
  { exists [], [Row "├─ 📁 dir2" "/r/dir2" true 0;
                Row "│  └─ 📄 c.txt" "/r/dir2/c.txt" false 1],
           [Row "└─ 📄 B.txt" "/r/B.txt" false 0].
    split; [reflexivity|]. split; [reflexivity|].
    repeat constructor. }
  split; [exact H1|]. split; [exact H2|]. split; [exact H3|].
  exact (C6_siblings_sorted scenario_env {["/r/dir2"]} "/r" _ rows r1 r2 H1 H2 H3).
Defined.

(** *** The scenario *)

Lemma join_inj (p e1 e2 : string) :
  valid_name e1 = true → valid_name e2 = true → join p e1 = join p e2 → e1 = e2.
Proof.
  intros H1 H2 H. by rewrite <- (basename_join p e1 H1), H, basename_join.
Qed.

(** C8. A root with a parent that holds the empty directory [dir1], the
    directory [dir2] with the single file [c.txt], and the files [a.txt] and
    [B.txt], in whatever order they are listed, flattens with nothing
    expanded to the parent link, [dir1] as a plain folder, [dir2] with the
    plus marker, [a.txt] and [B.txt]; with [dir2] expanded the sequence has
    one more row, [c.txt], right after [dir2], one level deeper and drawn
    with the corner connector. *)
Theorem C8_scenario env root names :
  dirname root ≠ root →
  listdir env root = Ok names →
  Permutation names ["dir1"; "dir2"; "a.txt"; "B.txt"] →
  isdir env (join root "dir1") = true →
  listdir env (join root "dir1") = Ok [] →
  isdir env (join root "dir2") = true →
  listdir env (join root "dir2") = Ok ["c.txt"] →
  isdir env (join (join root "dir2") "c.txt") = false →
  isdir env (join root "a.txt") = false →
  isdir env (join root "B.txt") = false →
  lower env "dir1" = "dir1" → lower env "dir2" = "dir2" →
  lower env "a.txt" = "a.txt" → lower env "B.txt" = "b.txt" →
  (2 ≤ recursion_limit env)%nat →
  flatten_tree env ∅ root
  = Ok [ Row "├─ 📁 .." (dirname root) true 0;
         Row "├─ 📁 dir1" (join root "dir1") true 0;
         Row "├─+📁 dir2" (join root "dir2") true 0;
         Row "├─ 📄 a.txt" (join root "a.txt") false 0;
         Row "└─ 📄 B.txt" (join root "B.txt") false 0 ]
  ∧ flatten_tree env {[join root "dir2"]} root
    = Ok [ Row "├─ 📁 .." (dirname root) true 0;
           Row "├─ 📁 dir1" (join root "dir1") true 0;
           Row "├─ 📁 dir2" (join root "dir2") true 0;
           Row "│  └─ 📄 c.txt" (join (join root "dir2") "c.txt") false 1;
           Row "├─ 📄 a.txt" (join root "a.txt") false 0;
           Row "└─ 📄 B.txt" (join root "B.txt") false 0 ].
Proof.
  intros Hroot Hl Hperm Hd1 Hl1 Hd2 Hl2 Hdc Hda Hdb Hw1 Hw2 Hwa Hwb Hlim.
  assert (Hplink : ∀ prefix, parent_link root 0 prefix
            = [Row (prefix +:+ "├─ " +:+ FOLDER_ICON +:+ " ..") (dirname root) true 0]).
  { intros prefix. unfold parent_link. simpl.
    by destruct (String.eqb_spec (dirname root) root). }
  assert (Hch : list_children env root
                = Ok [("dir1", true); ("dir2", true); ("a.txt", false); ("B.txt", false)]).
  { unfold list_children. rewrite Hl. f_equal. unfold sort_entries.
    apply sorted_unique.
    - apply key_leb_total.
    - apply key_leb_trans.
    - rewrite Hperm. simpl. by rewrite Hd1, Hd2, Hda, Hdb.
    - repeat constructor; unfold key_leb; simpl; rewrite ?Hw1, ?Hw2, ?Hwa, ?Hwb; reflexivity.
    - intros x y Hx Hy.
      repeat (apply elem_of_cons in Hx as [->|Hx]); try (by apply elem_of_nil in Hx);
        repeat (apply elem_of_cons in Hy as [->|Hy]); try (by apply elem_of_nil in Hy);
        unfold key_leb; simpl; rewrite ?Hw1, ?Hw2, ?Hwa, ?Hwb; done. }
  assert (Hne : join root "dir1" ≠ join root "dir2").
  { intros H. by apply join_inj in H. }
  unfold flatten_tree.
  destruct (recursion_limit env) as [|[|fuel]]; [lia|lia|].
  split.
  - simpl. rewrite Hch, Hplink. simpl.
    unfold child_step, child_display. simpl.
    rewrite !bool_decide_eq_false_2 by set_solver. simpl.
    rewrite Hl1, Hl2. vm_compute. reflexivity.
  - simpl. rewrite Hch, Hplink. simpl.
    unfold child_step, child_display. simpl.
    rewrite (bool_decide_eq_false_2 (join root "dir1" ∈ _)) by set_solver.
    rewrite (bool_decide_eq_true_2 (join root "dir2" ∈ _)) by set_solver.
    simpl. rewrite Hl1. simpl.
    unfold list_children. rewrite Hl2. simpl.
    unfold child_step, child_display. simpl.
    rewrite Hdc. vm_compute. reflexivity.
Qed.

Lemma C8_scenario_witness :
  flatten_tree scenario_env ∅ "/r" = Ok scenario_rows
  ∧ flatten_tree scenario_env {["/r/dir2"]} "/r"
    = Ok [ Row "├─ 📁 .." "/" true 0;
           Row "├─ 📁 dir1" "/r/dir1" true 0;
           Row "├─ 📁 dir2" "/r/dir2" true 0;
           Row "│  └─ 📄 c.txt" "/r/dir2/c.txt" false 1;
           Row "├─ 📄 a.txt" "/r/a.txt" false 0;
           Row "└─ 📄 B.txt" "/r/B.txt" false 0 ].
Proof.
  apply (C8_scenario scenario_env "/r" ["B.txt"; "dir2"; "a.txt"; "dir1"]);
    try reflexivity.
  - discriminate.
  - solve_Permutation.
  - simpl. lia.
Defined.

(** *** The keys *)

Lemma handle_key_enter env key s :
  key ∈ enter_keys →
  handle_key env key s =
    match getitem (flat_items s) (selected s) with
    | Raise x => Crash x
    | Ok r =>
        if String.eqb (basename (full_path r)) ".." then
          refresh env (dirname (path s)) (expanded_dirs s) 0 0
        else if is_dir r then refresh env (full_path r) ∅ 0 0
        else refresh env (path s) (expanded_dirs s) 0 0
    end.
Proof.
  unfold enter_keys. intros Hk.
  repeat (apply elem_of_cons in Hk as [->|Hk]); [done..|].
  by apply elem_of_nil in Hk.
Qed.

Lemma handle_key_right env s :
  handle_key env KEY_RIGHT s =
    match getitem (flat_items s) (selected s) with
    | Raise x => Crash x
    | Ok r =>
        if is_dir r then
          refresh env (path s) (toggle (full_path r) (expanded_dirs s))
            (selected s) (offset s)
        else Continue s
    end.
Proof. reflexivity. Qed.

Lemma handle_key_quit env key s :
  key ∈ [KEY_q; KEY_ESC] → handle_key env key s = Break.
Proof.
  intros Hk. repeat (apply elem_of_cons in Hk as [->|Hk]); [done..|].
  by apply elem_of_nil in Hk.
Qed.

(** The states of the scenario with the cursor moved down from the top. *)
Lemma scenario_reachable_0 : reachable scenario_env "/r" (scenario_state 0).
Proof. apply reach_init. vm_compute. reflexivity. Qed.

Lemma scenario_reachable_3 : reachable scenario_env "/r" (scenario_state 3).
Proof.
  apply (reach_step _ _ (scenario_state 2) 24 KEY_DOWN); [|vm_compute; reflexivity].
  apply (reach_step _ _ (scenario_state 1) 24 KEY_DOWN); [|vm_compute; reflexivity].
  apply (reach_step _ _ (scenario_state 0) 24 KEY_DOWN); [|vm_compute; reflexivity].
  apply scenario_reachable_0.
Qed.

Lemma scenario_env_wf : env_wf scenario_env.
Proof. apply env_of_wf; reflexivity. Qed.

(** *** Enter on a file *)

(** C3, as the specification words it, fails: in the scenario, with the
    cursor on [a.txt] (row 3), Enter moves the cursor to row 0. *)
Lemma C3_enter_on_file_counterexample : ¬ enter_on_file_is_noop scenario_env.
Proof.
  intros H.
  specialize (H "/r" (scenario_state 3) 24%Z (Row "├─ 📄 a.txt" "/r/a.txt" false 0)
                scenario_reachable_3 eq_refl eq_refl).
  apply (f_equal (λ st, match st with Continue s => selected s | _ => 0%Z end)) in H.
  vm_compute in H. discriminate H.
Qed.

(** C3, amended. When the row under the cursor is a file, Enter leaves the
    root, the expansion set and the flattened sequence as they are, and sets
    the cursor and the scroll offset to 0. *)
Theorem C3_enter_on_file env start s h key r :
  env_wf env →
  reachable env start s →
  key ∈ enter_keys →
  selected_row (clamp h s) = Ok r → is_dir r = false →
  handle_key env key (clamp h s)
  = Continue (State (path s) (expanded_dirs s) (flat_items s) 0 0).
Proof.
  intros Hwf Hreach Hkey Hr Hfile.
  pose proof (clamp_coherent env h s (reachable_coherent env Hwf start s Hreach)) as Hc.
  rewrite (handle_key_enter env key _ Hkey).
  unfold selected_row in Hr. rewrite Hr.
  rewrite (selected_row_basename env Hwf _ r Hc Hr), Hfile.
  unfold refresh. simpl. destruct Hc as [Hf _ _]. simpl in Hf. by rewrite Hf.
Qed.

Lemma C3_enter_on_file_witness :
  env_wf scenario_env
  ∧ reachable scenario_env "/r" (scenario_state 3)
  ∧ 10%Z ∈ enter_keys
  ∧ selected_row (clamp 24 (scenario_state 3)) = Ok (Row "├─ 📄 a.txt" "/r/a.txt" false 0)
  ∧ is_dir (Row "├─ 📄 a.txt" "/r/a.txt" false 0) = false
  ∧ handle_key scenario_env 10 (clamp 24 (scenario_state 3))
    = Continue (State "/r" ∅ scenario_rows 0 0).
Proof.
  assert (Hk : 10%Z ∈ enter_keys) by (right; left).
  split; [exact scenario_env_wf|]. split; [exact scenario_reachable_3|].
  split; [exact Hk|]. split; [reflexivity|]. split; [reflexivity|].
  exact (C3_enter_on_file scenario_env "/r" (scenario_state 3) 24 10 _
           scenario_env_wf scenario_reachable_3 Hk eq_refl eq_refl).
Defined.

(** *** Enter on the parent link *)

(** C5. When the row under the cursor is the parent link, Enter makes the
    parent directory of the root the new root, empties the expansion set,
    sets the cursor and the scroll offset to 0, and shows the flattening of
    the new root. *)
Theorem C5_enter_on_parent_link env start s h key :
  env_wf env →
  reachable env start s →
  key ∈ enter_keys →
  parent_link_selected (clamp h s) →
  ∃ items,
    flatten_tree env ∅ (dirname (path s)) = Ok items
    ∧ handle_key env key (clamp h s) = Continue (State (dirname (path s)) ∅ items 0 0).
Proof.
  intros Hwf Hreach Hkey (r & Hr & Hlink).
  pose proof (clamp_coherent env h s (reachable_coherent env Hwf start s Hreach)) as Hc.
  unfold selected_row in Hr. simpl in Hlink.
  pose proof (parent_link_inv (path s) r Hlink) as (Hpath & Hdir & _ & _).
  destruct (flatten_tree_ok_inv env _ _ _ (coh_items env _ Hc)) as [Hlim Hlist].
  simpl in Hlist.
  destruct (flatten_tree_total env Hwf ∅ (dirname (path s))) as (items & Hitems).
  { apply (wf_parent env Hwf); [|done]. by destruct Hc. }
  { by rewrite size_empty. }
  exists items. split; [done|].
  rewrite (handle_key_enter env key _ Hkey), Hr.
  rewrite (selected_row_basename env Hwf _ r Hc Hr), Hdir, Hpath.
  unfold refresh. by rewrite Hitems.
Qed.

Lemma C5_enter_on_parent_link_witness :
  env_wf scenario_env
  ∧ reachable scenario_env "/r" (scenario_state 0)
  ∧ KEY_ENTER ∈ enter_keys
  ∧ parent_link_selected (clamp 24 (scenario_state 0))
  ∧ ∃ items,
      flatten_tree scenario_env ∅ (dirname "/r") = Ok items
      ∧ handle_key scenario_env KEY_ENTER (clamp 24 (scenario_state 0))
        = Continue (State (dirname "/r") ∅ items 0 0).
Proof.
  assert (Hk : KEY_ENTER ∈ enter_keys) by left.
  assert (Hp : parent_link_selected (clamp 24 (scenario_state 0))).
  { exists (Row "├─ 📁 .." "/" true 0). split; reflexivity. }
  split; [exact scenario_env_wf|]. split; [exact scenario_reachable_0|].
  split; [exact Hk|]. split; [exact Hp|].
  exact (C5_enter_on_parent_link scenario_env "/r" (scenario_state 0) 24 KEY_ENTER
           scenario_env_wf scenario_reachable_0 Hk Hp).
Defined.

(** *** Expanding the parent link *)

(** The flattening of a root looks up in the expansion set only paths that
    are longer than the root: toggling a path that is not longer changes no
    row. *)
Lemma flatten_tree_toggle_short env (E : gset string) root x :
  env_wf env →
  (String.length x ≤ String.length root)%nat →
  flatten_tree env (toggle x E) root = flatten_tree env E root.
Proof.
  intros Hwf Hlen. unfold flatten_tree.
  apply (recurse_agree env env (toggle x E) E
           (λ q, (String.length root ≤ String.length q)%nat)); [done|done| |done].
  intros p names e Hp Hl He.
  pose proof (wf_names env Hwf p names Hl) as Hv.
  rewrite Forall_forall in Hv. apply Hv in He.
  pose proof (join_length p e He) as Hlong.
  split; [done|]. split; [|lia].
  apply bool_decide_ext. rewrite elem_of_toggle.
  rewrite bool_decide_eq_false_2; [done|].
  intros Heq. rewrite <- Heq in Hlen. lia.
Qed.

(** C10. When the row under the cursor is the parent link, the right-arrow
    key toggles the path of the parent directory in the expansion set, and
    the flattened sequence computed afterwards is the one shown before:
    root, rows, cursor and scroll offset stay as they are. *)
Theorem C10_expand_on_parent_link env start s h :
  env_wf env →
  reachable env start s →
  parent_link_selected (clamp h s) →
  handle_key env KEY_RIGHT (clamp h s)
  = Continue (State (path s) (toggle (dirname (path s)) (expanded_dirs s))
                (flat_items s) (selected (clamp h s)) (offset (clamp h s)))
  ∧ flatten_tree env (toggle (dirname (path s)) (expanded_dirs s)) (path s)
    = Ok (flat_items s)
  ∧ (dirname (path s) ∈ toggle (dirname (path s)) (expanded_dirs s)
     ↔ dirname (path s) ∉ expanded_dirs s).
Proof.
  intros Hwf Hreach (r & Hr & Hlink).
  pose proof (clamp_coherent env h s (reachable_coherent env Hwf start s Hreach)) as Hc.
  unfold selected_row in Hr. simpl in Hlink.
  pose proof (parent_link_inv (path s) r Hlink) as (Hpath & Hdir & _ & _).
  assert (Hflat : flatten_tree env (toggle (dirname (path s)) (expanded_dirs s)) (path s)
                  = Ok (flat_items s)).
  { rewrite flatten_tree_toggle_short; [|done|apply dirname_length].
    exact (coh_items env _ Hc). }
  split; [|split; [exact Hflat|]].
  - rewrite handle_key_right, Hr, Hdir, Hpath.
    unfold refresh. simpl path. simpl expanded_dirs. by rewrite Hflat.
  - rewrite elem_of_toggle. by rewrite bool_decide_eq_true_2.
Qed.

Lemma C10_expand_on_parent_link_witness :
  env_wf scenario_env
  ∧ reachable scenario_env "/r" (scenario_state 0)
  ∧ parent_link_selected (clamp 24 (scenario_state 0))
  ∧ handle_key scenario_env KEY_RIGHT (clamp 24 (scenario_state 0))
    = Continue (State "/r" (toggle (dirname "/r") ∅) scenario_rows
                  (selected (clamp 24 (scenario_state 0)))
                  (offset (clamp 24 (scenario_state 0))))
  ∧ flatten_tree scenario_env (toggle (dirname "/r") ∅) "/r" = Ok scenario_rows
  ∧ (dirname "/r" ∈ toggle (dirname "/r") (∅ : gset string)
     ↔ dirname "/r" ∉ (∅ : gset string)).
Proof.
  assert (Hp : parent_link_selected (clamp 24 (scenario_state 0))).
  { exists (Row "├─ 📁 .." "/" true 0). split; reflexivity. }
  split; [exact scenario_env_wf|]. split; [exact scenario_reachable_0|].
  split; [exact Hp|].
  exact (C10_expand_on_parent_link scenario_env "/r" (scenario_state 0) 24
           scenario_env_wf scenario_reachable_0 Hp).
Defined.

(** *** The command line *)

(** C9, as the specification words it, fails: started in [/r] with the
    argument [/r/dir2], the program shows [/r], not [/r/dir2]. *)
Lemma C9_cli_argument_counterexample : ¬ starts_at_cli_argument scenario_env.
Proof.
  intros H. specialize (H ["ws.py"; "/r/dir2"] []).
  apply (f_equal shown_root) in H. vm_compute in H. discriminate H.
Qed.

(** C9, amended. The script does not read its command line: whatever the
    arguments, it runs [main] on the current working directory, whose
    absolute path is the first root. The loop returns on [q] and on ESC, and
    a run that returns exits with code 0. *)
Theorem C9_cli_surface env argv inputs :
  script env argv inputs = main env (getcwd env) inputs
  ∧ match main_init env (getcwd env) with
    | Ok s => path s = abspath (getcwd env) (getcwd env)
    | Raise _ => True
    end
  ∧ (∀ s h rest, main_loop env ((h, KEY_q) :: rest) s = Returned
                 ∧ main_loop env ((h, KEY_ESC) :: rest) s = Returned)
  ∧ exit_code Returned = Some 0%Z.
Proof.
  split; [reflexivity|]. split; [|split; [|reflexivity]].
  - unfold main_init. by destruct (flatten_tree _ _ _).
  - intros s h rest. split; reflexivity.
Qed.

(** In the scenario a run with an argument starts in [/r] all the same, and
    exits with code 0 when [q] is pressed. *)
Example script_quit :
  shown_root (script scenario_env ["ws.py"; "/r/dir2"] []) = Some "/r"
  ∧ exit_code (script scenario_env ["ws.py"; "/r/dir2"]
                 [(24%Z, KEY_DOWN); (24%Z, KEY_RIGHT); (24%Z, KEY_q)]) = Some 0%Z.
Proof. split; vm_compute; reflexivity. Qed.

(* ===================================================================== *)
(** ** Further properties of [list_dir] and [flatten_tree] *)
(* ===================================================================== *)

(** X1. [list_dir] returns the entries of the listing with their directory
    flags, and the entry [..] when the path has a parent, each exactly once
    and sorted by the key [(not is_dir, lower(name))]; whatever
    [os.listdir] raises, [PermissionError] included, it raises too. *)
Theorem X1_list_dir_sorted_listing env path :
  match listdir env path with
  | Ok names =>
      ∃ items,
        list_dir env path = Ok items
        ∧ Permutation items
            ((if lists_parent path then [("..", true)] else [])
             ++ map (λ e, (e, isdir env (join path e))) names)
        ∧ StronglySorted (λ x y, key_leb (lower env) x y = true) items
  | Raise e => list_dir env path = Raise e
  end.
Proof.
  unfold list_dir, lists_parent. destruct (listdir env path) as [names|e]; [|done].
  simpl. eexists. split; [reflexivity|]. split.
  - apply sorted_perm.
  - apply sorted_strongly; [apply key_leb_total|apply key_leb_trans].
Qed.

(** X2. In a snapshot, the flattening of a directory returns its rows
    whenever the recursion limit is above the number of expanded paths:
    nested calls of [recurse] only follow ever longer members of the
    expansion set. *)
Theorem X2_flatten_tree_returns env (expanded : gset string) root :
  env_wf env →
  is_listing (listdir env root) →
  (size expanded < recursion_limit env)%nat →
  ∃ items, flatten_tree env expanded root = Ok items.
Proof. intros Hwf. by apply flatten_tree_total. Qed.

Lemma X2_flatten_tree_returns_witness :
  env_wf scenario_env
  ∧ is_listing (listdir scenario_env "/r")
  ∧ (size ({["/r/dir2"]} : gset string) < recursion_limit scenario_env)%nat
  ∧ ∃ items, flatten_tree scenario_env {["/r/dir2"]} "/r" = Ok items.
Proof.
  assert (H2 : is_listing (listdir scenario_env "/r")) by exact I.
  assert (H3 : (size ({["/r/dir2"]} : gset string) < recursion_limit scenario_env)%nat)
    by (vm_compute; lia).
  split; [exact scenario_env_wf|]. split; [exact H2|]. split; [exact H3|].
  exact (X2_flatten_tree_returns scenario_env {["/r/dir2"]} "/r" scenario_env_wf H2 H3).
Defined.

(** The rows of a group at the depth of the group are the rows of the
    children, one for each and in their order. *)
Lemma children_rows_at_depth env expanded p d prefix n idx children rows :
  children_rows env expanded p d prefix n idx children rows →
  map row_entry (at_depth d rows) = map (λ c, (join p c.1, c.2)) children.
Proof.
  unfold at_depth.
  induction 1 as [| ? ? ? ? ? entry dir ? ? ? ? ? ? IH
                  | ? d ? ? ? entry dir ? ? ? sub ? ? ? ? Hsub _ ? IH2]; simpl.
  - done.
  - rewrite Nat.eqb_refl. simpl. by rewrite IH.
  - rewrite Nat.eqb_refl. simpl. rewrite List.filter_app, map_app, IH2.
    apply children_rows_depth in Hsub.
    replace (List.filter (λ r, depth r =? d)%nat sub) with (@nil row); [done|].
    symmetry. induction Hsub as [|r sub Hr _ IHs]; [done|]. simpl.
    destruct (Nat.eqb_spec (depth r) d); [lia|done].
Qed.

Lemma flatten_tree_top_level env expanded root names items :
  flatten_tree env expanded root = Ok items →
  listdir env root = Ok names →
  ∃ rows,
    items = parent_link root 0 "" ++ rows
    ∧ map row_entry (at_depth 0 rows)
      = map (λ c, (join root c.1, c.2)) (sort_entries env root names)
    ∧ Permutation (sort_entries env root names)
        (map (λ e, (e, isdir env (join root e))) names).
Proof.
  intros H Hl.
  apply flatten_tree_sound in H as (children & rows & Hch & Hrows & ->).
  unfold list_children in Hch. rewrite Hl in Hch. injection Hch as <-.
  exists rows. split; [done|]. split.
  - by eapply children_rows_at_depth.
  - apply sorted_perm.
Qed.

(** X3. Whatever is expanded, the rows at depth 0 below the parent link
    are the entries of the root's listing, one row for each entry, in sorted
    order, with the path [join(root, entry)] and the flag [os.path.isdir]
    gives that path. *)
Theorem X3_top_level_rows_are_the_listing env expanded root names items :
  flatten_tree env expanded root = Ok items →
  listdir env root = Ok names →
  ∃ rows,
    items = parent_link root 0 "" ++ rows
    ∧ map row_entry (at_depth 0 rows)
      = map (λ c, (join root c.1, c.2)) (sort_entries env root names)
    ∧ Permutation (sort_entries env root names)
        (map (λ e, (e, isdir env (join root e))) names).
Proof. apply flatten_tree_top_level. Qed.

Lemma X3_top_level_rows_are_the_listing_witness :
  flatten_tree scenario_env {["/r/dir2"]} "/r"
  = Ok [ Row "├─ 📁 .." "/" true 0;
         Row "├─ 📁 dir1" "/r/dir1" true 0;
         Row "├─ 📁 dir2" "/r/dir2" true 0;
         Row "│  └─ 📄 c.txt" "/r/dir2/c.txt" false 1;
         Row "├─ 📄 a.txt" "/r/a.txt" false 0;
         Row "└─ 📄 B.txt" "/r/B.txt" false 0 ]
  ∧ listdir scenario_env "/r" = Ok ["B.txt"; "dir2"; "a.txt"; "dir1"]
  ∧ ∃ rows,
      [ Row "├─ 📁 .." "/" true 0;
        Row "├─ 📁 dir1" "/r/dir1" true 0;
        Row "├─ 📁 dir2" "/r/dir2" true 0;
        Row "│  └─ 📄 c.txt" "/r/dir2/c.txt" false 1;
        Row "├─ 📄 a.txt" "/r/a.txt" false 0;
        Row "└─ 📄 B.txt" "/r/B.txt" false 0 ]
      = parent_link "/r" 0 "" ++ rows
      ∧ map row_entry (at_depth 0 rows)
        = map (λ c, (join "/r" c.1, c.2))
            (sort_entries scenario_env "/r" ["B.txt"; "dir2"; "a.txt"; "dir1"])
      ∧ Permutation (sort_entries scenario_env "/r" ["B.txt"; "dir2"; "a.txt"; "dir1"])
          (map (λ e, (e, isdir scenario_env (join "/r" e)))
             ["B.txt"; "dir2"; "a.txt"; "dir1"]).
Proof.
  assert (H1 : flatten_tree scenario_env {["/r/dir2"]} "/r"
               = Ok [ Row "├─ 📁 .." "/" true 0;
                      Row "├─ 📁 dir1" "/r/dir1" true 0;
                      Row "├─ 📁 dir2" "/r/dir2" true 0;
                      Row "│  └─ 📄 c.txt" "/r/dir2/c.txt" false 1;
                      Row "├─ 📄 a.txt" "/r/a.txt" false 0;
                      Row "└─ 📄 B.txt" "/r/B.txt" false 0 ])
    by (vm_compute; reflexivity).
  assert (H2 : listdir scenario_env "/r" = Ok ["B.txt"; "dir2"; "a.txt"; "dir1"])
    by reflexivity.
  split; [exact H1|]. split; [exact H2|].
  exact (X3_top_level_rows_are_the_listing scenario_env {["/r/dir2"]} "/r" _ _ H1 H2).
Defined.

Lemma children_rows_first env expanded p d prefix n idx children r rows :
  children_rows env expanded p d prefix n idx children (r :: rows) →
  ∃ e rest, children = (e, is_dir r) :: rest ∧ full_path r = join p e ∧ depth r = d.
Proof. inversion 1; subst; simpl; eauto. Qed.

(** Two rows in a row: the second is not deeper, or it is the first entry
    of the first, an expanded directory. *)
Lemma children_rows_adjacent env expanded p d prefix n idx children rows r1 r2 :
  children_rows env expanded p d prefix n idx children rows →
  adjacent rows r1 r2 →
  (depth r2 ≤ depth r1)%nat
  ∨ (depth r2 = depth r1 + 1
     ∧ is_dir r1 = true ∧ full_path r1 ∈ expanded
     ∧ ∃ e, entry_of env (full_path r1) (e, is_dir r2)
            ∧ full_path r2 = join (full_path r1) e).
Proof.
  induction 1 as [| ? ? ? ? ? entry dir ? ? ? ? ? Hrows IH
                  | ? d ? ? ? entry dir ? ? ? sub ? ? Hexp Hlist Hsub IH1 Hrows IH2];
    intros (l1 & l2 & Heq).
  - by destruct l1.
  - destruct l1 as [|x l1]; simpl in Heq; injection Heq as <- Heq.
    + subst. apply children_rows_head in Hrows. simpl. left. lia.
    + apply IH. by exists l1, l2.
  - pose proof (children_rows_depth _ _ _ _ _ _ _ _ _ Hsub) as Hdeep.
    rewrite Forall_forall in Hdeep.
    assert (Hhead : ∀ y k, rows = y :: k → depth y = d).
    { intros y k ->. by eapply children_rows_head. }
    destruct l1 as [|x l1]; simpl in Heq; injection Heq as <- Heq.
    + destruct sub as [|y sub]; simpl in Heq.
      * left. apply Hhead in Heq. simpl. lia.
      * injection Heq as <- _. right.
        apply andb_true_iff in Hexp as [-> Hin%bool_decide_eq_true].
        destruct (children_rows_first _ _ _ _ _ _ _ _ _ _ Hsub) as (e & rest' & -> & Hp & Hd).
        simpl. split; [done|]. split; [done|]. split; [done|].
        exists e. split; [|done].
        apply list_children_entries in Hlist.
        by apply Forall_cons in Hlist as [? _].
    + apply app_eq_inv in Heq as [(k & -> & Hk)|(k & -> & ->)].
      * destruct k as [|y [|z k]]; simpl in Hk.
        -- apply IH2. exists [], l2. done.
        -- injection Hk as <- Hk. left.
           symmetry in Hk. apply Hhead in Hk.
           assert (r1 ∈ l1 ++ [r1]) as Hin by (apply elem_of_app; right; left).
           apply Hdeep in Hin. lia.
        -- injection Hk as <- <- _. apply IH1. exists l1, k. done.
      * apply IH2. by exists k, l2.
Qed.

(** X4. In the flattened sequence a row is at most one level deeper than
    the row before it, and when it is deeper, the row before it is a
    directory of the expansion set and the row itself is an entry of that
    directory: rows of a directory's content only ever follow its own row,
    and only while it is expanded. *)
Theorem X4_deeper_row_follows_its_expanded_directory env expanded root items r1 r2 :
  flatten_tree env expanded root = Ok items →
  adjacent items r1 r2 →
  (depth r2 ≤ depth r1 + 1)%nat
  ∧ ((depth r1 < depth r2)%nat →
     is_dir r1 = true ∧ full_path r1 ∈ expanded
     ∧ ∃ e, entry_of env (full_path r1) (e, is_dir r2)
            ∧ full_path r2 = join (full_path r1) e).
Proof.
  intros H (l1 & l2 & Heq).
  apply flatten_tree_sound in H as (children & rows & Hlist & Hrows & ->).
  assert ((depth r2 ≤ depth r1)%nat
          ∨ (depth r2 = depth r1 + 1
             ∧ is_dir r1 = true ∧ full_path r1 ∈ expanded
             ∧ ∃ e, entry_of env (full_path r1) (e, is_dir r2)
                    ∧ full_path r2 = join (full_path r1) e)) as [Hle|(Hd & Hrest)].
  { unfold parent_link in Heq. simpl in Heq.
    destruct (negb _); simpl in Heq.
    - destruct l1 as [|x l1]; simpl in Heq; injection Heq as <- Heq.
      + left. symmetry in Heq.
        destruct rows as [|y rows]; [done|]. injection Heq as <- _.
        apply children_rows_head in Hrows. simpl. lia.
      + eapply children_rows_adjacent; [exact Hrows|]. by exists l1, l2.
    - eapply children_rows_adjacent; [exact Hrows|]. by exists l1, l2. }
  - split; [lia|]. intros. lia.
  - split; [lia|]. intros _. exact Hrest.
Qed.

Lemma X4_deeper_row_follows_its_expanded_directory_witness :
  let items := [ Row "├─ 📁 .." "/" true 0;
                 Row "├─ 📁 dir1" "/r/dir1" true 0;
                 Row "├─ 📁 dir2" "/r/dir2" true 0;
                 Row "│  └─ 📄 c.txt" "/r/dir2/c.txt" false 1;
                 Row "├─ 📄 a.txt" "/r/a.txt" false 0;
                 Row "└─ 📄 B.txt" "/r/B.txt" false 0 ] in
  let r1 := Row "├─ 📁 dir2" "/r/dir2" true 0 in
  let r2 := Row "│  └─ 📄 c.txt" "/r/dir2/c.txt" false 1 in
  flatten_tree scenario_env {["/r/dir2"]} "/r" = Ok items
  ∧ adjacent items r1 r2
  ∧ (depth r2 ≤ depth r1 + 1)%nat
  ∧ ((depth r1 < depth r2)%nat →
     is_dir r1 = true ∧ full_path r1 ∈ ({["/r/dir2"]} : gset string)
     ∧ ∃ e, entry_of scenario_env (full_path r1) (e, is_dir r2)
            ∧ full_path r2 = join (full_path r1) e).
Proof.
  intros items r1 r2.
  assert (H1 : flatten_tree scenario_env {["/r/dir2"]} "/r" = Ok items)
    by (vm_compute; reflexivity).
  assert (H2 : adjacent items r1 r2).
  { exists [ Row "├─ 📁 .." "/" true 0; Row "├─ 📁 dir1" "/r/dir1" true 0 ],
           [ Row "├─ 📄 a.txt" "/r/a.txt" false 0; Row "└─ 📄 B.txt" "/r/B.txt" false 0 ].
    reflexivity. }
  split; [exact H1|]. split; [exact H2|].
  exact (X4_deeper_row_follows_its_expanded_directory
           scenario_env {["/r/dir2"]} "/r" items r1 r2 H1 H2).
Defined.

(** With nothing expanded no call of [recurse] is nested: every row is at
    depth 0. *)
Lemma children_rows_collapsed env p d prefix n idx children rows :
  children_rows env ∅ p d prefix n idx children rows →
  Forall (λ r, depth r = d) rows.
Proof.
  induction 1 as [| |? ? ? ? ? ? ? ? ? ? ? ? ? Hexp]; [constructor|by constructor|].
  rewrite bool_decide_eq_false_2 in Hexp by set_solver.
  by rewrite andb_false_r in Hexp.
Qed.

(** X5. With an empty expansion set the flattened sequence has one row for
    each name [os.listdir] returns for the root, all at depth 0, after the
    parent link: no entry is dropped and none is shown twice. *)
Theorem X5_collapsed_one_row_per_entry env root names items :
  flatten_tree env ∅ root = Ok items →
  listdir env root = Ok names →
  length items = length (parent_link root 0 "") + length names
  ∧ Forall (λ r, depth r = 0) items
  ∧ Permutation (map row_entry items)
      (map row_entry (parent_link root 0 "")
       ++ map (λ e, (join root e, isdir env (join root e))) names).
Proof.
  intros H Hl.
  destruct (flatten_tree_top_level env ∅ root names items H Hl)
    as (rows & -> & Hmap & Hperm).
  apply flatten_tree_sound in H as (children & rows' & Hch & Hrows & Heq).
  apply app_inv_head in Heq as <-.
  apply children_rows_collapsed in Hrows.
  assert (at_depth 0 rows = rows) as Hall.
  { unfold at_depth. clear -Hrows.
    induction Hrows as [|r rows Hr _ IH]; [done|]. simpl. by rewrite Hr, IH. }
  rewrite Hall in Hmap.
  split; [|split].
  - rewrite length_app. f_equal.
    rewrite <- (length_map row_entry rows), Hmap, length_map.
    rewrite (Permutation_length Hperm). by rewrite length_map.
  - apply Forall_app. split; [|done].
    unfold parent_link. simpl. destruct (negb _); repeat constructor.
  - rewrite map_app. apply Permutation_app_head. rewrite Hmap.
    rewrite Hperm, map_map. done.
Qed.

Lemma X5_collapsed_one_row_per_entry_witness :
  flatten_tree scenario_env ∅ "/r" = Ok scenario_rows
  ∧ listdir scenario_env "/r" = Ok ["B.txt"; "dir2"; "a.txt"; "dir1"]
  ∧ length scenario_rows
    = length (parent_link "/r" 0 "") + length ["B.txt"; "dir2"; "a.txt"; "dir1"]
  ∧ Forall (λ r, depth r = 0) scenario_rows
  ∧ Permutation (map row_entry scenario_rows)
      (map row_entry (parent_link "/r" 0 "")
       ++ map (λ e, (join "/r" e, isdir scenario_env (join "/r" e)))
            ["B.txt"; "dir2"; "a.txt"; "dir1"]).
Proof.
  assert (H1 : flatten_tree scenario_env ∅ "/r" = Ok scenario_rows)
    by (by vm_compute).
  assert (H2 : listdir scenario_env "/r" = Ok ["B.txt"; "dir2"; "a.txt"; "dir1"])
    by reflexivity.
  split; [exact H1|]. split; [exact H2|].
  exact (X5_collapsed_one_row_per_entry scenario_env "/r"
           ["B.txt"; "dir2"; "a.txt"; "dir1"] scenario_rows H1 H2).
Defined.

(** *** Labels *)

Lemma icon_free_app (a b : string) : icon_free (a +:+ b) = icon_free a && icon_free b.
Proof.
  induction a as [|c a IH]; [done|]. rewrite append_cons. simpl.
  by rewrite IH, andb_assoc.
Qed.

Lemma child_display_shape env expanded prefix connector entry fp dir dn :
  child_display env expanded prefix connector entry fp dir = Ok dn →
  ∃ marker, marker ∈ [PLUS_ICON; " "; NO_ACCESS_ICON]
            ∧ dn = label_of (prefix +:+ connector +:+ marker) dir entry.
Proof.
  unfold child_display, label_of, icon_of.
  destruct (dir && negb _) eqn:Hcond.
  - apply andb_true_iff in Hcond as [-> _].
    destruct (listdir env fp) as [l|[]]; simpl; try done.
    + destruct (negb _); intros [= <-].
      * exists PLUS_ICON. split; [left|]. by rewrite !append_assoc.
      * exists " ". split; [right; left|]. by rewrite !append_assoc.
    + intros [= <-]. exists NO_ACCESS_ICON. split; [right; right; left|].
      by rewrite !append_assoc.
  - intros [= <-]. exists " ". split; [right; left|]. by rewrite !append_assoc.
Qed.

Lemma children_rows_labelled env expanded root p d prefix n idx children rows :
  children_rows env expanded p d prefix n idx children rows →
  icon_free prefix = true →
  Forall (entry_of env p) children →
  Forall (λ r, ∃ art name, labelled env root r art name) rows.
Proof.
  assert (Hart : ∀ pre (b : bool) marker,
            icon_free pre = true →
            marker ∈ [PLUS_ICON; " "; NO_ACCESS_ICON] →
            icon_free (pre +:+ (if b then "└─" else "├─") +:+ marker) = true).
  { intros pre b marker Hpre Hm. rewrite !icon_free_app, Hpre.
    repeat (apply elem_of_cons in Hm as [->|Hm]); [by destruct b..|].
    by apply elem_of_nil in Hm. }
  induction 1 as [| ? ? ? ? ? entry dir ? ? ? Hdn ? ? IH
                  | ? ? ? ? ? entry dir ? ? ? ? ? Hdn ? Hlist ? IH1 ? IH2];
    intros Hpre He.
  - constructor.
  - apply Forall_cons in He as [He1 He].
    apply child_display_shape in Hdn as (marker & Hm & ->).
    constructor; [|by apply IH].
    match goal with |- context [label_of ?a _ _] => exists a, entry end.
    split; [by apply Hart|]. split; [done|].
    right. by exists p.
  - apply Forall_cons in He as [He1 He].
    apply child_display_shape in Hdn as (marker & Hm & ->).
    constructor; [|apply Forall_app; split].
    + match goal with |- context [label_of ?a _ _] => exists a, entry end.
      split; [by apply Hart|]. split; [done|].
      right. by exists p.
    + apply IH1.
      * rewrite icon_free_app, Hpre. by destruct (_ =? _)%Z.
      * by eapply list_children_entries.
    + by apply IH2.
Qed.

(** X6. Every row of the flattened sequence is labelled by line drawing and
    marker that hold no icon, then the folder icon when the row is a
    directory and the file icon when it is not, a space, and the name of
    the entry ([..] for the parent link): the icon tells the kind of the
    row, and the label ends with the name as [os.listdir] gave it. *)
Theorem X6_label_shows_kind_and_name env expanded root items r :
  flatten_tree env expanded root = Ok items →
  r ∈ items →
  ∃ art name, labelled env root r art name.
Proof.
  intros H Hin.
  apply flatten_tree_sound in H as (children & rows & Hlist & Hrows & ->).
  apply elem_of_app in Hin as [Hin|Hin].
  - assert (parent_link root 0 "" = [r]) as Hlink.
    { unfold parent_link in *. simpl in *.
      destruct (negb _); [|by apply elem_of_nil in Hin].
      by apply list_elem_of_singleton in Hin as ->. }
    pose proof Hlink as Hr. unfold parent_link in Hr. simpl in Hr.
    destruct (negb _); [|done]. injection Hr as <-.
    exists "├─ ", "..". split; [reflexivity|]. split; [reflexivity|]. by left.
  - eapply children_rows_labelled in Hrows;
      [|reflexivity|by eapply list_children_entries].
    rewrite Forall_forall in Hrows. by apply Hrows.
Qed.

Lemma X6_label_shows_kind_and_name_witness :
  let items := [ Row "├─ 📁 .." "/" true 0;
                 Row "├─ 📁 dir1" "/r/dir1" true 0;
                 Row "├─ 📁 dir2" "/r/dir2" true 0;
                 Row "│  └─ 📄 c.txt" "/r/dir2/c.txt" false 1;
                 Row "├─ 📄 a.txt" "/r/a.txt" false 0;
                 Row "└─ 📄 B.txt" "/r/B.txt" false 0 ] in
  let r := Row "│  └─ 📄 c.txt" "/r/dir2/c.txt" false 1 in
  flatten_tree scenario_env {["/r/dir2"]} "/r" = Ok items
  ∧ r ∈ items
  ∧ ∃ art name, labelled scenario_env "/r" r art name.
Proof.
  intros items r.
  assert (H1 : flatten_tree scenario_env {["/r/dir2"]} "/r" = Ok items)
    by (vm_compute; reflexivity).
  assert (H2 : r ∈ items) by (do 3 right; left).
  split; [exact H1|]. split; [exact H2|].
  exact (X6_label_shows_kind_and_name scenario_env {["/r/dir2"]} "/r" items r H1 H2).
Defined.

(* ===================================================================== *)
(** ** Properties of [draw_menu] *)
(* ===================================================================== *)

Lemma take_drop_bytes (n : nat) (s : string) : take_bytes n s +:+ drop_bytes n s = s.
Proof.
  revert s. induction n as [|n IH]; intros [|c s]; simpl; try done.
  by rewrite append_cons, IH.
Qed.

Lemma take_bytes_app (a s : string) : take_bytes (String.length a) (a +:+ s) = a.
Proof.
  induction a as [|c a IH]; [done|].
  rewrite append_cons. simpl. by rewrite IH.
Qed.

Lemma drop_bytes_app (a s : string) : drop_bytes (String.length a) (a +:+ s) = s.
Proof.
  induction a as [|c a IH]; [by rewrite append_nil_l|].
  rewrite append_cons. simpl. by rewrite IH.
Qed.

Lemma line_text_app (y : Z) (a b : list curses_call) :
  line_text y (a ++ b) = line_text y a +:+ line_text y b.
Proof.
  induction a as [|[| |y' x t c|] a IH]; simpl; try done.
  destruct (y' =? y)%Z; [|done]. by rewrite IH, append_assoc.
Qed.

Lemma line_text_draw_row (sel off : Z) (i : nat) (r : row) (y : Z) :
  line_text y (draw_row sel off i r)
  = if (Z.of_nat i + 1 =? y)%Z then display_name r else "".
Proof.
  unfold draw_row. destruct (_ =? sel)%Z; simpl.
  - destruct (_ =? y)%Z; [apply append_nil_r|done].
  - destruct (_ =? y)%Z; [|done]. by rewrite append_nil_r, take_drop_bytes.
Qed.

Lemma line_text_draw_rows_above (sel off : Z) (vis : list row) :
  ∀ i y, (y < Z.of_nat i + 1)%Z → line_text y (draw_rows sel off i vis) = "".
Proof.
  induction vis as [|r vis IH]; intros i y Hy; [done|]. simpl.
  rewrite line_text_app, line_text_draw_row, IH by lia.
  destruct (Z.eqb_spec (Z.of_nat i + 1) y); [lia|done].
Qed.

Lemma line_text_draw_rows (sel off : Z) (vis : list row) :
  ∀ i k r, vis !! k = Some r →
    line_text (Z.of_nat (i + k) + 1) (draw_rows sel off i vis) = display_name r.
Proof.
  induction vis as [|r0 vis IH]; intros i k r Hk; [done|]. simpl.
  rewrite line_text_app, line_text_draw_row.
  destruct k as [|k]; simpl in Hk.
  - injection Hk as ->. rewrite Nat.add_0_r, Z.eqb_refl.
    rewrite line_text_draw_rows_above by lia. apply append_nil_r.
  - destruct (Z.eqb_spec (Z.of_nat i + 1) (Z.of_nat (i + S k) + 1)); [lia|].
    rewrite append_nil_l. replace (i + S k) with (S i + k) by lia. by apply IH.
Qed.

(** X16. Whatever the cursor, the text [draw_menu] puts on screen line
    [k + 1] is the label of the row at index [k] of the visible slice, whole
    and unchanged: the two parts a row that is not under the cursor is
    drawn in join up to its label. *)
Theorem X16_draw_menu_keeps_labels w path items sel off ps k r :
  slice items off (off + ps) !! k = Some r →
  line_text (Z.of_nat k + 1) (draw_menu w path items sel off ps) = display_name r.
Proof.
  intros Hk. unfold draw_menu.
  rewrite !line_text_app.
  pose proof (line_text_draw_rows sel off _ 0 k r Hk) as Hrows.
  rewrite Nat.add_0_l in Hrows. rewrite Hrows.
  assert (∀ y t, (0 < y)%Z →
            line_text y [Clear; Border; Addstr 0 1 t 0] = "") as ->.
  { intros y t Hy. destruct y; [lia|done|lia]. }
  - simpl. by rewrite append_nil_l, append_nil_r.
  - lia.
Qed.

Lemma X16_draw_menu_keeps_labels_witness :
  slice scenario_rows 1 (1 + 2) !! 1 = Some (Row "├─+📁 dir2" "/r/dir2" true 0)
  ∧ line_text (Z.of_nat 1 + 1) (draw_menu 80 "/r" scenario_rows 1 1 2)
    = display_name (Row "├─+📁 dir2" "/r/dir2" true 0).
Proof.
  assert (H : slice scenario_rows 1 (1 + 2) !! 1
              = Some (Row "├─+📁 dir2" "/r/dir2" true 0)) by reflexivity.
  split; [exact H|].
  exact (X16_draw_menu_keeps_labels 80 "/r" scenario_rows 1 1 2 1 _ H).
Defined.

(** *** The page *)

Lemma slice_length {A : Type} (l : list A) (start stop : Z) :
  (0 ≤ start)%Z → (0 ≤ stop - start)%Z →
  (Z.of_nat (length (slice l start stop)) ≤ stop - start)%Z.
Proof.
  intros Hs Hp. unfold slice, slice_index.
  rewrite length_take.
  destruct (Z.ltb_spec start 0); [lia|].
  destruct (Z.ltb_spec stop 0); lia.
Qed.

Lemma slice_lookup {A : Type} (l : list A) (start stop i : Z) (x : A) :
  (0 ≤ start ≤ i)%Z → (i < stop)%Z →
  l !! Z.to_nat i = Some x →
  slice l start stop !! Z.to_nat (i - start) = Some x.
Proof.
  intros Hs Hi Hx. unfold slice, slice_index.
  pose proof (lookup_lt_Some _ _ _ Hx) as Hlen.
  destruct (Z.ltb_spec start 0); [lia|].
  destruct (Z.ltb_spec stop 0); [lia|].
  rewrite lookup_take_lt by lia.
  rewrite lookup_drop. rewrite <- Hx. f_equal. lia.
Qed.

Lemma draw_rows_lines (sel off : Z) (vis : list row) :
  ∀ i y x t c, Addstr y x t c ∈ draw_rows sel off i vis →
    (Z.of_nat i + 1 ≤ y ≤ Z.of_nat i + Z.of_nat (length vis))%Z ∧ (1 ≤ x)%Z.
Proof.
  induction vis as [|r vis IH]; intros i y x t c Hin; [by apply elem_of_nil in Hin|].
  simpl in Hin. apply elem_of_app in Hin as [Hin|Hin].
  - unfold draw_row in Hin. destruct (_ =? sel)%Z.
    + apply list_elem_of_singleton in Hin. injection Hin as -> -> _ _. simpl. lia.
    + repeat (apply elem_of_cons in Hin as [Hin|Hin]);
        [injection Hin as -> -> _ _; simpl; lia..|by apply elem_of_nil in Hin].
  - apply IH in Hin. simpl. lia.
Qed.

(** X15. With a scroll offset and a page size that are not negative,
    [draw_menu] writes the title on line 0 and rows on the lines 1 to
    [page_size] only, from column 1 on: it never draws more rows than the
    page holds. *)
Theorem X15_draw_menu_stays_on_the_page w path items sel off ps y x t c :
  (0 ≤ off)%Z → (0 ≤ ps)%Z →
  Addstr y x t c ∈ draw_menu w path items sel off ps →
  (0 ≤ y ≤ ps)%Z ∧ (1 ≤ x)%Z
  ∧ (y = 0%Z → t = str_slice_to (w - 2) path).
Proof.
  intros Hoff Hps Hin. unfold draw_menu in Hin.
  apply elem_of_app in Hin as [Hin|Hin].
  - repeat (apply elem_of_cons in Hin as [Hin|Hin]); try discriminate.
    + injection Hin as -> -> -> _. split; [lia|]. split; [lia|done].
    + by apply elem_of_nil in Hin.
  - apply elem_of_app in Hin as [Hin|Hin].
    + apply draw_rows_lines in Hin as [Hy Hx].
      pose proof (slice_length items off (off + ps) Hoff) as Hlen.
      split; [lia|]. split; [done|]. lia.
    + apply list_elem_of_singleton in Hin. discriminate.
Qed.

Lemma X15_draw_menu_stays_on_the_page_witness :
  (0 ≤ 1)%Z ∧ (0 ≤ 2)%Z
  ∧ Addstr 2 4 "📁 dir2" 2 ∈ draw_menu 80 "/r" scenario_rows 1 1 2
  ∧ (0 ≤ 2 ≤ 2)%Z ∧ (1 ≤ 4)%Z
  ∧ (2%Z = 0%Z → "📁 dir2" = str_slice_to (80 - 2) "/r").
Proof.
  assert (H1 : (0 ≤ 1)%Z) by lia.
  assert (H2 : (0 ≤ 2)%Z) by lia.
  assert (H3 : Addstr 2 4 "📁 dir2" 2 ∈ draw_menu 80 "/r" scenario_rows 1 1 2).
  { vm_compute. do 5 right. left. }
  split; [exact H1|]. split; [exact H2|]. split; [exact H3|].
  exact (X15_draw_menu_stays_on_the_page 80 "/r" scenario_rows 1 1 2 2 4 _ 2 H1 H2 H3).
Defined.

(** *** The cursor on the page *)

Lemma getitem_in_range {A : Type} (l : list A) (i : Z) :
  (0 ≤ i < Z.of_nat (length l))%Z →
  ∃ x, getitem l i = Ok x ∧ l !! Z.to_nat i = Some x.
Proof.
  intros Hi. unfold getitem.
  destruct (Z.ltb_spec i 0); [lia|].
  destruct (Z.ltb_spec i 0); [lia|].
  destruct (Z.leb_spec (Z.of_nat (length l)) i); [lia|]. simpl.
  destruct (l !! Z.to_nat i) as [x|] eqn:Hl; [eauto|].
  apply lookup_ge_None in Hl. lia.
Qed.

Lemma draw_rows_selected (sel off : Z) (vis : list row) :
  ∀ i k r, vis !! k = Some r → (off + Z.of_nat (i + k) = sel)%Z →
    Addstr (Z.of_nat (i + k) + 1) 1 (display_name r) 3 ∈ draw_rows sel off i vis.
Proof.
  induction vis as [|r0 vis IH]; intros i k r Hk Hsel; [done|]. simpl.
  apply elem_of_app. destruct k as [|k]; simpl in Hk.
  - injection Hk as ->. left. unfold draw_row.
    rewrite Nat.add_0_r in *. destruct (Z.eqb_spec (off + Z.of_nat i) sel); [left|lia].
  - right. replace (i + S k) with (S i + k) in * by lia. by apply IH.
Qed.

Lemma clamp_selected (h : Z) (s : state) :
  flat_items s ≠ [] → (0 ≤ selected s)%Z →
  (0 ≤ selected (clamp h s) < Z.of_nat (length (flat_items s)))%Z.
Proof.
  intros Hne Hsel. unfold clamp. simpl.
  assert (0 < Z.of_nat (length (flat_items s)))%Z.
  { destruct (flat_items s); [done|]. simpl. lia. }
  case_Z_tests; lia.
Qed.

(** X14. In every pass of the loop of [main] that has a row to show and a
    window with room for one, the row under the cursor is drawn, once and
    whole in the highlight pair 3, on a line of the page: scrolling keeps
    the cursor on screen. *)
Theorem X14_cursor_row_is_drawn env start s h w :
  reachable env start s →
  flat_items s ≠ [] →
  (1 ≤ page_size h)%Z →
  ∃ r y,
    selected_row (clamp h s) = Ok r
    ∧ (1 ≤ y ≤ page_size h)%Z
    ∧ y = (selected (clamp h s) - offset (clamp h s) + 1)%Z
    ∧ Addstr y 1 (display_name r) 3 ∈ draw_pass h w s.
Proof.
  intros Hreach Hne Hps.
  destruct (reachable_nonneg env start s Hreach Hne) as [Hsel Hoff].
  destruct (clamp_bounds h s Hne Hsel Hoff Hps) as (_ & Hoff' & Hvis).
  pose proof (clamp_selected h s Hne Hsel) as Hrange.
  destruct (getitem_in_range (flat_items s) (selected (clamp h s)) Hrange)
    as (r & Hget & Hlook).
  exists r, (selected (clamp h s) - offset (clamp h s) + 1)%Z.
  split; [exact Hget|]. split; [lia|]. split; [done|].
  unfold draw_pass, draw_menu.
  apply elem_of_app. right. apply elem_of_app. left.
  set (sel := selected (clamp h s)) in *. set (off := offset (clamp h s)) in *.
  change (flat_items (clamp h s)) with (flat_items s).
  pose proof (slice_lookup (flat_items s) off (off + page_size h) sel r) as Hslice.
  pose proof (draw_rows_selected sel off
                (slice (flat_items s) off (off + page_size h))
                0 (Z.to_nat (sel - off)) r) as Hdraw.
  rewrite Nat.add_0_l in Hdraw.
  replace (Z.of_nat (Z.to_nat (sel - off)) + 1)%Z with (sel - off + 1)%Z in Hdraw by lia.
  apply Hdraw; [apply Hslice; [lia|lia|done]|lia].
Qed.

Lemma X14_cursor_row_is_drawn_witness :
  reachable scenario_env "/r" (scenario_state 3)
  ∧ flat_items (scenario_state 3) ≠ []
  ∧ (1 ≤ page_size 4)%Z
  ∧ ∃ r y,
      selected_row (clamp 4 (scenario_state 3)) = Ok r
      ∧ (1 ≤ y ≤ page_size 4)%Z
      ∧ y = (selected (clamp 4 (scenario_state 3))
             - offset (clamp 4 (scenario_state 3)) + 1)%Z
      ∧ Addstr y 1 (display_name r) 3 ∈ draw_pass 4 80 (scenario_state 3).
Proof.
  assert (H2 : flat_items (scenario_state 3) ≠ []) by discriminate.
  assert (H3 : (1 ≤ page_size 4)%Z) by (vm_compute; discriminate).
  split; [exact scenario_reachable_3|]. split; [exact H2|]. split; [exact H3|].
  exact (X14_cursor_row_is_drawn scenario_env "/r" (scenario_state 3) 4 80
           scenario_reachable_3 H2 H3).
Defined.

(** *** Where a label is cut *)

Lemma prefix_first_byte (c a : ascii) (n s : string) :
  a ≠ c → String.prefix (String c n) (String a s) = false.
Proof. intros Hne. simpl. by destruct (ascii_dec c a); [subst|]. Qed.

Lemma find_sub_icon_free (n art s : string) :
  icon_free art = true →
  find_sub (String "240" n) (art +:+ s)
  = option_map (λ k, String.length art + k) (find_sub (String "240" n) s).
Proof.
  intros Hart. induction art as [|c art IH].
  - rewrite append_nil_l. simpl String.length.
    by destruct (find_sub _ s).
  - simpl in Hart. apply andb_true_iff in Hart as [Hc Hart].
    apply negb_true_iff, Ascii.eqb_neq in Hc.
    rewrite append_cons.
    change (find_sub (String "240" n) (String c (art +:+ s)))
      with (if String.prefix (String "240" n) (String c (art +:+ s)) then Some 0
            else option_map S (find_sub (String "240" n) (art +:+ s))).
    rewrite (prefix_first_byte _ _ _ _ Hc), (IH Hart).
    by destruct (find_sub _ s).
Qed.

Lemma find_folder_at_folder (s : string) : find_sub FOLDER_ICON (FOLDER_ICON +:+ s) = Some 0.
Proof.
  unfold FOLDER_ICON. rewrite !append_cons, append_nil_l.
  destruct s; reflexivity.
Qed.

Lemma find_file_at_file (s : string) : find_sub FILE_ICON (FILE_ICON +:+ s) = Some 0.
Proof.
  unfold FILE_ICON. rewrite !append_cons, append_nil_l.
  destruct s; reflexivity.
Qed.

Lemma find_folder_after_file (name : string) :
  find_sub FOLDER_ICON name = None →
  find_sub FOLDER_ICON (FILE_ICON +:+ " " +:+ name) = None.
Proof.
  intros Hname. unfold FILE_ICON.
  rewrite !append_cons, !append_nil_l.
  do 5 (match goal with
        | |- context [find_sub ?n (String ?c ?s)] =>
            change (find_sub n (String c s))
              with (if String.prefix n (String c s) then Some 0
                    else option_map S (find_sub n s));
            replace (String.prefix n (String c s)) with false by reflexivity;
            cbv iota
        end).
  by rewrite Hname.
Qed.

Lemma icon_position_label (art name : string) (dir : bool) :
  icon_free art = true →
  dir = true ∨ find_sub FOLDER_ICON name = None →
  icon_position (label_of art dir name) = String.length art.
Proof.
  intros Hart Hcase. unfold icon_position, label_of, icon_of.
  change FOLDER_ICON with (String "240" (String "159" (String "147" (String "129" ""))))
    at 1.
  rewrite (find_sub_icon_free _ art _ Hart).
  destruct dir.
  - change (String "240" (String "159" (String "147" (String "129" ""))))
      with FOLDER_ICON.
    rewrite find_folder_at_folder. simpl. lia.
  - destruct Hcase as [?|Hname]; [done|].
    change (String "240" (String "159" (String "147" (String "129" ""))))
      with FOLDER_ICON.
    rewrite (find_folder_after_file name Hname). simpl.
    change FILE_ICON with (String "240" (String "159" (String "147" (String "132" ""))))
      at 1.
    rewrite (find_sub_icon_free _ art _ Hart).
    change (String "240" (String "159" (String "147" (String "132" ""))))
      with FILE_ICON.
    rewrite find_file_at_file. simpl. lia.
Qed.

(** X17. A row that is not under the cursor and is labelled the way
    [flatten_tree] labels rows is drawn in two parts that meet right before
    its icon: the line drawing and the marker in the default pair 0, then
    the icon and the name in pair 2 for a directory and in pair 1 for a
    file, at the column after the line drawing. For a file this needs a
    name that does not hold the folder icon. *)
Theorem X17_row_is_cut_before_its_icon sel off i r art name :
  icon_free art = true →
  display_name r = label_of art (is_dir r) name →
  is_dir r = true ∨ find_sub FOLDER_ICON name = None →
  (off + Z.of_nat i)%Z ≠ sel →
  draw_row sel off i r
  = [ Addstr (Z.of_nat i + 1) 1 art 0;
      Addstr (Z.of_nat i + 1) (1 + Z.of_nat (str_len art))
        (icon_of (is_dir r) +:+ " " +:+ name) (if is_dir r then 2 else 1)%Z ].
Proof.
  intros Hart Hlabel Hcase Hsel. unfold draw_row.
  destruct (Z.eqb_spec (off + Z.of_nat i) sel); [done|].
  rewrite Hlabel, (icon_position_label art name (is_dir r) Hart Hcase).
  unfold label_of. by rewrite take_bytes_app, drop_bytes_app.
Qed.

Lemma X17_row_is_cut_before_its_icon_witness :
  let r := Row "│  └─ 📄 c.txt" "/r/dir2/c.txt" false 1 in
  icon_free "│  └─ " = true
  ∧ display_name r = label_of "│  └─ " (is_dir r) "c.txt"
  ∧ (is_dir r = true ∨ find_sub FOLDER_ICON "c.txt" = None)
  ∧ (0 + Z.of_nat 3)%Z ≠ 1%Z
  ∧ draw_row 1 0 3 r
    = [ Addstr (Z.of_nat 3 + 1) 1 "│  └─ " 0;
        Addstr (Z.of_nat 3 + 1) (1 + Z.of_nat (str_len "│  └─ "))
          (icon_of (is_dir r) +:+ " " +:+ "c.txt") (if is_dir r then 2 else 1)%Z ].
Proof.
  intros r.
  assert (H1 : icon_free "│  └─ " = true) by reflexivity.
  assert (H2 : display_name r = label_of "│  └─ " (is_dir r) "c.txt") by reflexivity.
  assert (H3 : is_dir r = true ∨ find_sub FOLDER_ICON "c.txt" = None)
    by (right; reflexivity).
  assert (H4 : (0 + Z.of_nat 3)%Z ≠ 1%Z) by discriminate.
  split; [exact H1|]. split; [exact H2|]. split; [exact H3|]. split; [exact H4|].
  exact (X17_row_is_cut_before_its_icon 1 0 3 r "│  └─ " "c.txt" H1 H2 H3 H4).
Defined.

(** A file whose name holds the folder icon is cut inside its name: the
    file icon is then drawn with the line drawing. *)
Example file_named_with_folder_icon :
  draw_row 1 0 0 (Row "└─ 📄 a📁b" "/r/a📁b" false 0)
  = [Addstr 1 1 "└─ 📄 a" 0; Addstr 1 7 "📁b" 1].
Proof. vm_compute. reflexivity. Qed.

(* ===================================================================== *)
(** ** Further properties of the loop of [main] *)
(* ===================================================================== *)

Lemma state_eta (s : state) :
  State (path s) (expanded_dirs s) (flat_items s) (selected s) (offset s) = s.
Proof. by destruct s. Qed.

Lemma handle_key_down env s :
  handle_key env KEY_DOWN s =
    if (selected s <? Z.of_nat (length (flat_items s)) - 1)%Z
    then Continue (State (path s) (expanded_dirs s) (flat_items s)
                     (selected s + 1) (offset s))
    else Continue s.
Proof. unfold handle_key. by destruct (_ <? _)%Z. Qed.

Lemma handle_key_up env s :
  handle_key env KEY_UP s =
    if (selected s >? 0)%Z
    then Continue (State (path s) (expanded_dirs s) (flat_items s)
                     (selected s - 1) (offset s))
    else Continue s.
Proof. unfold handle_key. by destruct (_ >? _)%Z. Qed.

Lemma clamp_selected_in_range (h : Z) (s : state) :
  (selected s < Z.of_nat (length (flat_items s)))%Z →
  selected (clamp h s) = selected s.
Proof. intros Hsel. unfold clamp. simpl. case_Z_tests; lia. Qed.

(** X8. From a cursor on a row, [n] presses of the down arrow move the
    cursor [n] rows down and stop it on the last row; root, expansion set
    and rows stay as they are and the dispatch raises nothing, whatever the
    window heights. *)
Theorem X8_down_moves_and_stops_at_the_last_row env hs s :
  (0 ≤ selected s < Z.of_nat (length (flat_items s)))%Z →
  ∃ off,
    main_loop env (presses KEY_DOWN hs) s
    = Waiting (State (path s) (expanded_dirs s) (flat_items s)
                 (Z.min (selected s + Z.of_nat (length hs))
                    (Z.of_nat (length (flat_items s)) - 1))
                 off).
Proof.
  revert s. induction hs as [|h hs IH]; intros s Hsel.
  - exists (offset s). simpl. rewrite Z.add_0_r, Z.min_l by lia.
    by rewrite state_eta.
  - assert (Hc : selected (clamp h s) = selected s)
      by (apply clamp_selected_in_range; lia).
    assert (Hpass : main_loop env (presses KEY_DOWN (h :: hs)) s
                    = main_loop env (presses KEY_DOWN hs)
                        (State (path s) (expanded_dirs s) (flat_items s)
                           (Z.min (selected s + 1)
                              (Z.of_nat (length (flat_items s)) - 1))
                           (offset (clamp h s)))).
    { unfold presses. cbn [map main_loop]. rewrite handle_key_down.
      change (flat_items (clamp h s)) with (flat_items s). rewrite Hc.
      destruct (Z.ltb_spec (selected s) (Z.of_nat (length (flat_items s)) - 1)).
      - rewrite Z.min_l by lia. reflexivity.
      - rewrite Z.min_r by lia. rewrite <- (state_eta (clamp h s)) at 1.
        rewrite Hc. do 2 f_equal. lia. }
    rewrite Hpass.
    destruct (IH (State (path s) (expanded_dirs s) (flat_items s)
                    (Z.min (selected s + 1) (Z.of_nat (length (flat_items s)) - 1))
                    (offset (clamp h s)))) as (off & ->); [simpl; lia|].
    exists off. simpl. do 2 f_equal. lia.
Qed.

Lemma X8_down_moves_and_stops_at_the_last_row_witness :
  (0 ≤ selected (scenario_state 3)
   < Z.of_nat (length (flat_items (scenario_state 3))))%Z
  ∧ ∃ off,
      main_loop scenario_env (presses KEY_DOWN [24; 3; 24]%Z) (scenario_state 3)
      = Waiting (State (path (scenario_state 3)) (expanded_dirs (scenario_state 3))
                   (flat_items (scenario_state 3))
                   (Z.min (selected (scenario_state 3)
                           + Z.of_nat (length [24; 3; 24]%Z))
                      (Z.of_nat (length (flat_items (scenario_state 3))) - 1))
                   off).
Proof.
  assert (H : (0 ≤ selected (scenario_state 3)
               < Z.of_nat (length (flat_items (scenario_state 3))))%Z)
    by (simpl; lia).
  split; [exact H|].
  exact (X8_down_moves_and_stops_at_the_last_row scenario_env [24; 3; 24]%Z
           (scenario_state 3) H).
Defined.

(** X9. From a cursor on a row, [n] presses of the up arrow move the cursor
    [n] rows up and stop it on row 0; root, expansion set and rows stay as
    they are and the dispatch raises nothing. *)
Theorem X9_up_moves_and_stops_at_the_first_row env hs s :
  (0 ≤ selected s < Z.of_nat (length (flat_items s)))%Z →
  ∃ off,
    main_loop env (presses KEY_UP hs) s
    = Waiting (State (path s) (expanded_dirs s) (flat_items s)
                 (Z.max (selected s - Z.of_nat (length hs)) 0) off).
Proof.
  revert s. induction hs as [|h hs IH]; intros s Hsel.
  - exists (offset s). simpl. rewrite Z.sub_0_r, Z.max_l by lia.
    by rewrite state_eta.
  - assert (Hc : selected (clamp h s) = selected s)
      by (apply clamp_selected_in_range; lia).
    assert (Hpass : main_loop env (presses KEY_UP (h :: hs)) s
                    = main_loop env (presses KEY_UP hs)
                        (State (path s) (expanded_dirs s) (flat_items s)
                           (Z.max (selected s - 1) 0) (offset (clamp h s)))).
    { unfold presses. cbn [map main_loop]. rewrite handle_key_up, Hc.
      destruct (Z.gtb_spec (selected s) 0).
      - rewrite Z.max_l by lia. reflexivity.
      - rewrite Z.max_r by lia. rewrite <- (state_eta (clamp h s)) at 1.
        rewrite Hc. do 2 f_equal. lia. }
    rewrite Hpass.
    destruct (IH (State (path s) (expanded_dirs s) (flat_items s)
                    (Z.max (selected s - 1) 0) (offset (clamp h s))))
      as (off & ->); [simpl; lia|].
    exists off. simpl. do 2 f_equal. lia.
Qed.

Lemma X9_up_moves_and_stops_at_the_first_row_witness :
  (0 ≤ selected (scenario_state 3)
   < Z.of_nat (length (flat_items (scenario_state 3))))%Z
  ∧ ∃ off,
      main_loop scenario_env (presses KEY_UP [24; 3; 24; 24]%Z) (scenario_state 3)
      = Waiting (State (path (scenario_state 3)) (expanded_dirs (scenario_state 3))
                   (flat_items (scenario_state 3))
                   (Z.max (selected (scenario_state 3)
                           - Z.of_nat (length [24; 3; 24; 24]%Z)) 0)
                   off).
Proof.
  assert (H : (0 ≤ selected (scenario_state 3)
               < Z.of_nat (length (flat_items (scenario_state 3))))%Z)
    by (simpl; lia).
  split; [exact H|].
  exact (X9_up_moves_and_stops_at_the_first_row scenario_env [24; 3; 24; 24]%Z
           (scenario_state 3) H).
Defined.

(** *** Keys without a binding *)

Lemma handle_key_unbound env key s :
  unbound key = true → handle_key env key s = Continue s.
Proof.
  unfold unbound, key_in. intros H%negb_true_iff. simpl in H.
  repeat (apply orb_false_iff in H as [? H]).
  unfold handle_key, key_in. simpl.
  unfold KEY_UP, KEY_DOWN, KEY_RIGHT, KEY_LEFT, KEY_ENTER, KEY_q, KEY_ESC in *.
  repeat match goal with
         | Hk : (key =? _)%Z = false |- _ => rewrite ?Hk; clear Hk
         end.
  reflexivity.
Qed.

Lemma clamp_idempotent (h : Z) (s : state) :
  (1 ≤ page_size h)%Z → clamp h (clamp h s) = clamp h s.
Proof.
  intros Hps. unfold clamp. simpl. f_equal; case_Z_tests; lia.
Qed.

(** X12. In a window with room for a row, a key that no branch of the loop
    is bound to changes nothing: the variables keep the values they had
    when the screen was drawn, and the next pass draws the same screen. *)
Theorem X12_unbound_key_changes_nothing env key h w s :
  (1 ≤ page_size h)%Z →
  unbound key = true →
  handle_key env key (clamp h s) = Continue (clamp h s)
  ∧ clamp h (clamp h s) = clamp h s
  ∧ draw_pass h w (clamp h s) = draw_pass h w s.
Proof.
  intros Hps Hkey. split; [by apply handle_key_unbound|].
  split; [by apply clamp_idempotent|].
  unfold draw_pass. by rewrite clamp_idempotent.
Qed.

Lemma X12_unbound_key_changes_nothing_witness :
  (1 ≤ page_size 4)%Z
  ∧ unbound 120 = true
  ∧ handle_key scenario_env 120 (clamp 4 (scenario_state 4))
    = Continue (clamp 4 (scenario_state 4))
  ∧ clamp 4 (clamp 4 (scenario_state 4)) = clamp 4 (scenario_state 4)
  ∧ draw_pass 4 80 (clamp 4 (scenario_state 4)) = draw_pass 4 80 (scenario_state 4).
Proof.
  assert (H1 : (1 ≤ page_size 4)%Z) by (vm_compute; discriminate).
  assert (H2 : unbound 120 = true) by reflexivity.
  split; [exact H1|]. split; [exact H2|].
  exact (X12_unbound_key_changes_nothing scenario_env 120 4 80 (scenario_state 4) H1 H2).
Defined.

(** In a window of two lines the page size is 0 and the top of the loop is
    not idempotent: the offset moves at every pass. *)
Example clamp_tiny_window_moves :
  offset (clamp 2 (scenario_state 0)) = 1%Z
  ∧ offset (clamp 2 (clamp 2 (scenario_state 0))) = 0%Z.
Proof. split; reflexivity. Qed.

(** *** The rows on screen *)

Lemma refresh_items env pth e sel off s' :
  refresh env pth e sel off = Continue s' →
  flatten_tree env (expanded_dirs s') (path s') = Ok (flat_items s').
Proof.
  unfold refresh. destruct (flatten_tree env e pth) as [items|] eqn:Hf; [|done].
  by intros [= <-].
Qed.

Lemma handle_key_items env key s s' :
  flatten_tree env (expanded_dirs s) (path s) = Ok (flat_items s) →
  handle_key env key s = Continue s' →
  flatten_tree env (expanded_dirs s') (path s') = Ok (flat_items s').
Proof.
  intros Hf. unfold handle_key.
  destruct (key_in key [KEY_UP; _] && _); [by intros [= <-]|].
  destruct (key_in key [KEY_DOWN; _] && _); [by intros [= <-]|].
  destruct (key_in key [KEY_RIGHT; _]).
  { destruct (getitem _ _) as [r|]; [|done].
    destruct (is_dir r); [apply refresh_items|by intros [= <-]]. }
  destruct (key_in key [KEY_LEFT; _]).
  { destruct (getitem _ _) as [r|]; [|done].
    destruct (is_dir r && _); [apply refresh_items|by intros [= <-]]. }
  destruct (key_in key [KEY_ENTER; _; _]).
  { destruct (getitem _ _) as [r|]; [|done].
    destruct (String.eqb _ _); [|destruct (is_dir r)]; apply refresh_items. }
  destruct (key_in key [KEY_q; _]); [done|]. by intros [= <-].
Qed.

(** X13. At the top of every pass of the loop the rows held in [flat_items]
    are the flattening of the current root with the current expansion set:
    every branch that changes the root or the expansion set computes the
    rows anew, so the screen never shows rows of another root or of an
    older expansion. *)
Theorem X13_rows_are_never_stale env start s :
  reachable env start s →
  flatten_tree env (expanded_dirs s) (path s) = Ok (flat_items s).
Proof.
  induction 1 as [s Hinit|s h key s' _ IH Hstep].
  - unfold main_init in Hinit. by apply bind_ok in Hinit as (items & Hf & [= <-]).
  - by eapply handle_key_items; [|exact Hstep].
Qed.

Lemma X13_rows_are_never_stale_witness :
  reachable scenario_env "/r" (scenario_state 3)
  ∧ flatten_tree scenario_env (expanded_dirs (scenario_state 3))
      (path (scenario_state 3))
    = Ok (flat_items (scenario_state 3)).
Proof.
  split; [exact scenario_reachable_3|].
  exact (X13_rows_are_never_stale scenario_env "/r" (scenario_state 3)
           scenario_reachable_3).
Defined.

(** *** No exception escapes *)

Lemma size_toggle (p : string) (E : gset string) : (size (toggle p E) ≤ size E + 1)%nat.
Proof.
  unfold toggle. case_bool_decide as Hp.
  - assert (Hs : (size (E ∖ {[p]}) ≤ size E)%nat).
    { apply subseteq_size. apply subseteq_difference_l. reflexivity. }
    lia.
  - rewrite size_union by set_solver. rewrite size_singleton. lia.
Qed.

Lemma refresh_no_crash env pth e sel off :
  env_wf env → is_listing (listdir env pth) →
  (size e < recursion_limit env)%nat →
  no_crash (refresh env pth e sel off).
Proof.
  intros Hwf Hl Hsize. unfold refresh.
  by destruct (flatten_tree_total env Hwf e pth Hl Hsize) as (items & ->).
Qed.

Lemma coherent_nonempty env s :
  coherent env s → dirname (path s) ≠ path s → flat_items s ≠ [].
Proof.
  intros [Hf _ _] Hparent Hnil.
  apply flatten_tree_sound in Hf as (children & rows & _ & _ & Heq).
  rewrite Hnil in Heq. unfold parent_link in Heq. simpl in Heq.
  by destruct (String.eqb_spec (dirname (path s)) (path s)).
Qed.

Lemma selected_row_listing env s r :
  env_wf env → coherent env s →
  getitem (flat_items s) (selected s) = Ok r → is_dir r = true →
  is_listing (listdir env (full_path r)).
Proof.
  intros Hwf Hc Hr Hdir.
  destruct (selected_row_cases env Hwf s r Hc Hr) as [Hp|(q & e & _ & _ & _ & Hpath & Hd)].
  - apply parent_link_inv in Hp as (-> & _).
    destruct Hc as [Hf _ Habs].
    apply (wf_parent env Hwf); [done|].
    by apply flatten_tree_ok_inv in Hf as [_ ?].
  - rewrite Hpath. apply (wf_isdir env Hwf). congruence.
Qed.

(** X10. On an unchanged snapshot, with a recursion limit more than one
    above the number of expanded paths, the dispatch on the key raises
    nothing, whatever the key, while a row is shown; and a row is shown
    wherever the root has a parent. Under these conditions a key can only
    raise at a filesystem root without rows. *)
Theorem X10_no_key_raises_while_a_row_is_shown env start s h key :
  env_wf env →
  reachable env start s →
  flat_items s ≠ [] ∨ dirname (path s) ≠ path s →
  (S (size (expanded_dirs s)) < recursion_limit env)%nat →
  no_crash (handle_key env key (clamp h s)).
Proof.
  intros Hwf Hreach Hshown Hlim.
  pose proof (reachable_coherent env Hwf start s Hreach) as Hc0.
  assert (Hne : flat_items s ≠ []).
  { destruct Hshown as [?|Hp]; [done|]. by apply (coherent_nonempty env). }
  pose proof (clamp_coherent env h s Hc0) as Hc.
  destruct (reachable_nonneg env start s Hreach Hne) as [Hsel _].
  destruct (getitem_in_range (flat_items s) (selected (clamp h s))
              (clamp_selected h s Hne Hsel)) as (r & Hr & _).
  assert (Hroot : is_listing (listdir env (path s))).
  { destruct Hc0 as [Hf _ _]. by apply flatten_tree_ok_inv in Hf as [_ ?]. }
  unfold handle_key.
  destruct (key_in key [KEY_UP; _] && _); [done|].
  destruct (key_in key [KEY_DOWN; _] && _); [done|].
  change (flat_items (clamp h s)) with (flat_items s). rewrite Hr.
  change (path (clamp h s)) with (path s).
  change (expanded_dirs (clamp h s)) with (expanded_dirs s).
  destruct (key_in key [KEY_RIGHT; _]).
  { destruct (is_dir r); [|done].
    apply refresh_no_crash; [done|done|].
    pose proof (size_toggle (full_path r) (expanded_dirs s)). lia. }
  destruct (key_in key [KEY_LEFT; _]).
  { destruct (is_dir r && _); [|done].
    apply refresh_no_crash; [done|done|].
    assert (Hs : (size (expanded_dirs s ∖ {[full_path r]}) ≤ size (expanded_dirs s))%nat).
    { apply subseteq_size. apply subseteq_difference_l. reflexivity. }
    lia. }
  destruct (key_in key [KEY_ENTER; _; _]).
  { rewrite (selected_row_basename env Hwf _ r Hc Hr).
    destruct (is_dir r) eqn:Hdir.
    - apply refresh_no_crash; [done| |rewrite size_empty; lia].
      by apply (selected_row_listing env (clamp h s)).
    - apply refresh_no_crash; [done|done|lia]. }
  by destruct (key_in key [KEY_q; _]).
Qed.

Lemma X10_no_key_raises_while_a_row_is_shown_witness :
  env_wf scenario_env
  ∧ reachable scenario_env "/r" (scenario_state 3)
  ∧ (flat_items (scenario_state 3) ≠ []
     ∨ dirname (path (scenario_state 3)) ≠ path (scenario_state 3))
  ∧ (S (size (expanded_dirs (scenario_state 3))) < recursion_limit scenario_env)%nat
  ∧ no_crash (handle_key scenario_env KEY_RIGHT (clamp 24 (scenario_state 3))).
Proof.
  assert (H3 : flat_items (scenario_state 3) ≠ []
               ∨ dirname (path (scenario_state 3)) ≠ path (scenario_state 3))
    by (left; discriminate).
  assert (H4 : (S (size (expanded_dirs (scenario_state 3)))
                < recursion_limit scenario_env)%nat)
    by (vm_compute; lia).
  split; [exact scenario_env_wf|]. split; [exact scenario_reachable_3|].
  split; [exact H3|]. split; [exact H4|].
  exact (X10_no_key_raises_while_a_row_is_shown scenario_env "/r" (scenario_state 3)
           24 KEY_RIGHT scenario_env_wf scenario_reachable_3 H3 H4).
Defined.

(** *** Paths without a trailing separator *)

Lemma nosep_endswith (c : string) : contains_sep c = false → endswith_sep c = false.
Proof.
  induction c as [|a c IH]; [done|]. simpl.
  intros [Ha Hc]%orb_false_iff. destruct c; [done|]. by apply IH.
Qed.

Lemma append_nonempty (a b : string) : b ≠ "" → a +:+ b ≠ "".
Proof. destruct a; [by rewrite append_nil_l|by rewrite append_cons]. Qed.

Lemma endswith_sep_app (a b : string) :
  b ≠ "" → endswith_sep (a +:+ b) = endswith_sep b.
Proof.
  intros Hb. induction a as [|c a IH]; [by rewrite append_nil_l|].
  rewrite append_cons. simpl.
  pose proof (append_nonempty a b Hb) as Hne.
  by destruct (a +:+ b).
Qed.

Lemma all_sep_app (a b : string) : all_sep (a +:+ b) = all_sep a && all_sep b.
Proof.
  induction a as [|c a IH]; [done|]. rewrite append_cons. simpl.
  by rewrite IH, andb_assoc.
Qed.

Lemma all_sep_endswith (p : string) : p ≠ "" → all_sep p = true → endswith_sep p = true.
Proof.
  induction p as [|c p IH]; [done|]. simpl.
  intros _ [Hc Hp]%andb_true_iff. destruct p; [done|]. by apply IH.
Qed.

Lemma rstrip_sep_endswith (s : string) : endswith_sep (rstrip_sep s) = false.
Proof.
  induction s as [|c s IH]; [done|]. simpl.
  destruct (rstrip_sep s) as [|c' r].
  - destruct (Ascii.eqb c sep) eqn:Hc; [done|]. simpl. exact Hc.
  - exact IH.
Qed.

Lemma rstrip_sep_app_sep (p : string) : rstrip_sep (p +:+ String sep "") = rstrip_sep p.
Proof.
  induction p as [|c p IH]; [done|]. rewrite append_cons. simpl. by rewrite IH.
Qed.

Lemma rstrip_sep_id (p : string) : endswith_sep p = false → rstrip_sep p = p.
Proof.
  induction p as [|c p IH]; [done|]. simpl. intros Hp.
  destruct p as [|c' p]; [simpl; by rewrite Hp|].
  by rewrite (IH Hp).
Qed.

Lemma head_part_app_sep (a e : string) :
  contains_sep e = false → head_part (a +:+ String sep e) = a +:+ String sep "".
Proof.
  intros He. induction a as [|c a IH].
  - rewrite !append_nil_l. simpl. by rewrite He.
  - rewrite !append_cons. simpl. rewrite contains_sep_app. simpl.
    by rewrite orb_true_r, IH.
Qed.

Lemma tidy_dirname (p : string) : tidy (dirname p).
Proof.
  unfold dirname, tidy.
  destruct (String.eqb_spec (head_part p) "") as [->|Hne]; simpl; [by left|].
  destruct (all_sep (head_part p)) eqn:Hall; simpl; [by left|].
  right. apply rstrip_sep_endswith.
Qed.

Lemma tidy_join (p e : string) : valid_name e = true → tidy (join p e).
Proof.
  intros (Hne & Hsep & _)%valid_name_inv. right. unfold join.
  rewrite (nosep_startswith _ Hsep).
  destruct (_ || _).
  - rewrite endswith_sep_app by done. by apply nosep_endswith.
  - rewrite !endswith_sep_app; [by apply nosep_endswith|done|by apply append_nonempty].
Qed.

(** The parent of an entry of a directory is the directory. *)
Lemma dirname_join (p e : string) :
  tidy p → valid_name e = true → dirname (join p e) = p.
Proof.
  intros Ht (Hne & Hsep & _)%valid_name_inv. unfold join.
  rewrite (nosep_startswith _ Hsep).
  destruct (String.eqb_spec p "") as [->|Hp]; simpl.
  { rewrite append_nil_l. unfold dirname. by rewrite (head_part_nosep _ Hsep). }
  destruct (endswith_sep p) eqn:Hend.
  - destruct Ht as [Hall|?]; [|congruence].
    apply endswith_sep_inv in Hend as (a & ->).
    rewrite append_assoc, append_cons, append_nil_l.
    unfold dirname. rewrite (head_part_app_sep _ _ Hsep), Hall.
    by rewrite andb_false_r.
  - rewrite append_cons, append_nil_l.
    unfold dirname. rewrite (head_part_app_sep _ _ Hsep).
    assert (all_sep p = false) as Hall.
    { destruct (all_sep p) eqn:Hall; [|done].
      rewrite (all_sep_endswith p Hp Hall) in Hend. done. }
    rewrite all_sep_app, Hall. simpl.
    destruct (String.eqb_spec (p +:+ String sep "") "") as [Heq|_].
    { by apply append_nonempty in Heq. }
    simpl. by rewrite rstrip_sep_app_sep, rstrip_sep_id.
Qed.

Lemma normpath_step_solid (k : nat) (new : list string) (comp : string) :
  contains_sep comp = false →
  Forall solid new → Forall solid (normpath_step k new comp).
Proof.
  intros Hc Hnew. unfold normpath_step.
  destruct (String.eqb_spec comp "") as [->|Hne]; simpl; [done|].
  destruct (String.eqb comp "."); [done|].
  destruct (_ || _).
  - apply Forall_app. split; [done|]. by repeat constructor.
  - apply Forall_forall. intros x Hx%removelast_elem_of.
    rewrite Forall_forall in Hnew. by apply Hnew.
Qed.

Lemma normpath_fold_solid (k : nat) (comps new : list string) :
  Forall (λ x, contains_sep x = false) comps →
  Forall solid new →
  Forall solid (fold_left (normpath_step k) comps new).
Proof.
  revert new. induction comps as [|c comps IH]; intros new Hc Hnew; [done|].
  apply Forall_cons in Hc as [Hc Hcs]. simpl.
  apply IH; [done|]. by apply normpath_step_solid.
Qed.

Lemma join_sep_solid (comps : list string) :
  Forall solid comps → comps ≠ [] →
  join_sep comps ≠ "" ∧ endswith_sep (join_sep comps) = false.
Proof.
  induction 1 as [|c comps [Hne Hsep] _ IH]; [done|]. intros _.
  destruct comps as [|c' comps].
  - simpl. split; [done|]. by apply nosep_endswith.
  - destruct IH as [IH1 IH2]; [done|].
    change (join_sep (c :: c' :: comps)) with (c +:+ "/" +:+ join_sep (c' :: comps)).
    rewrite append_cons, append_nil_l.
    split; [by apply append_nonempty|].
    rewrite endswith_sep_app; [|discriminate].
    destruct (join_sep (c' :: comps)) as [|a j]; [done|]. exact IH2.
Qed.

Lemma all_sep_repeat (k : nat) : all_sep (repeat_sep k) = true.
Proof. induction k as [|k IH]; [done|]. exact IH. Qed.

Lemma tidy_normpath (p : string) : tidy (normpath p).
Proof.
  unfold normpath.
  destruct (String.eqb p ""); [by right|].
  set (k := if startswith_sep p then _ else _).
  set (comps := fold_left (normpath_step k) (split_sep p) []).
  assert (Forall solid comps) as Hsolid.
  { apply normpath_fold_solid; [|constructor].
    apply Forall_forall. intros c. apply split_sep_components. }
  destruct (String.eqb _ ""); [by right|].
  destruct comps as [|c comps].
  - left. simpl. rewrite append_nil_r. apply all_sep_repeat.
  - right. destruct (join_sep_solid (c :: comps) Hsolid) as [Hne Hend]; [done|].
    by rewrite endswith_sep_app.
Qed.

Lemma refresh_path env pth e sel off s' :
  refresh env pth e sel off = Continue s' → path s' = pth.
Proof.
  unfold refresh. destruct (flatten_tree env e pth); [|done]. by intros [= <-].
Qed.

Lemma handle_key_tidy env key s s' :
  env_wf env → coherent env s → tidy (path s) →
  handle_key env key s = Continue s' → tidy (path s').
Proof.
  intros Hwf Hc Ht. unfold handle_key.
  destruct (key_in key [KEY_UP; _] && _); [by intros [= <-]|].
  destruct (key_in key [KEY_DOWN; _] && _); [by intros [= <-]|].
  destruct (key_in key [KEY_RIGHT; _]).
  { destruct (getitem _ _) as [r|]; [|done].
    destruct (is_dir r); [|by intros [= <-]].
    by intros ->%refresh_path. }
  destruct (key_in key [KEY_LEFT; _]).
  { destruct (getitem _ _) as [r|]; [|done].
    destruct (is_dir r && _); [|by intros [= <-]].
    by intros ->%refresh_path. }
  destruct (key_in key [KEY_ENTER; _; _]).
  { destruct (getitem _ _) as [r|] eqn:Hr; [|done].
    destruct (String.eqb _ "..").
    { intros ->%refresh_path. apply tidy_dirname. }
    destruct (is_dir r); [|by intros ->%refresh_path].
    intros ->%refresh_path.
    destruct (selected_row_cases env Hwf s r Hc Hr)
      as [Hp|(q & e & _ & _ & Hv & -> & _)].
    - apply parent_link_inv in Hp as (-> & _). apply tidy_dirname.
    - by apply tidy_join. }
  destruct (key_in key [KEY_q; _]); [done|]. by intros [= <-].
Qed.

Lemma reachable_tidy env start s :
  env_wf env → reachable env start s → tidy (path s).
Proof.
  intros Hwf. induction 1 as [s Hinit|s h key s' Hreach IH Hstep].
  - unfold main_init in Hinit.
    apply bind_ok in Hinit as (items & _ & [= <-]). simpl.
    apply tidy_normpath.
  - eapply (handle_key_tidy env key (clamp h s)); [done| |exact IH|exact Hstep].
    apply clamp_coherent. by eapply reachable_coherent.
Qed.

(** *** The root of every pass *)

(** X18. The root of every pass of the loop is an absolute path that
    [normpath] would leave as it is in these respects: it starts with a
    separator, has no [..] component, and ends with a separator only when
    it is made of separators. *)
Theorem X18_root_stays_normalised env start s :
  env_wf env →
  reachable env start s →
  isabs (path s) = true ∧ no_dotdot (path s) ∧ tidy (path s).
Proof.
  intros Hwf Hreach.
  destruct (reachable_coherent env Hwf start s Hreach) as [_ Hnd Habs].
  split; [done|]. split; [done|]. by eapply reachable_tidy.
Qed.

Lemma X18_root_stays_normalised_witness :
  env_wf scenario_env
  ∧ reachable scenario_env "/r" (scenario_state 3)
  ∧ isabs (path (scenario_state 3)) = true
  ∧ no_dotdot (path (scenario_state 3))
  ∧ tidy (path (scenario_state 3)).
Proof.
  split; [exact scenario_env_wf|]. split; [exact scenario_reachable_3|].
  exact (X18_root_stays_normalised scenario_env "/r" (scenario_state 3)
           scenario_env_wf scenario_reachable_3).
Defined.

(** *** Into a directory and back *)

Lemma enter_directory_row env key s r :
  env_wf env → coherent env s → key ∈ enter_keys →
  getitem (flat_items s) (selected s) = Ok r → is_dir r = true →
  ∃ items,
    flatten_tree env ∅ (full_path r) = Ok items
    ∧ handle_key env key s = Continue (State (full_path r) ∅ items 0 0).
Proof.
  intros Hwf Hc Hkey Hr Hdir.
  destruct (flatten_tree_ok_inv env _ _ _ (coh_items env _ Hc)) as [Hlim _].
  destruct (flatten_tree_total env Hwf ∅ (full_path r)) as (items & Hitems).
  { by apply (selected_row_listing env s). }
  { by rewrite size_empty. }
  exists items. split; [done|].
  rewrite (handle_key_enter env key _ Hkey), Hr.
  rewrite (selected_row_basename env Hwf _ r Hc Hr), Hdir.
  unfold refresh. by rewrite Hitems.
Qed.

Lemma top_level_row env expanded root items r :
  env_wf env →
  flatten_tree env expanded root = Ok items →
  r ∈ items → depth r = 0 → parent_link root 0 "" ≠ [r] →
  ∃ e, valid_name e = true ∧ full_path r = join root e.
Proof.
  intros Hwf Hf Hin Hd Hlink.
  apply flatten_tree_sound in Hf as (children & rows & Hch & Hrows & ->).
  apply elem_of_app in Hin as [Hin|Hin].
  { exfalso. apply Hlink. unfold parent_link in *. simpl in *.
    destruct (negb _); [|by apply elem_of_nil in Hin].
    by apply list_elem_of_singleton in Hin as ->. }
  destruct (children_rows_level env expanded _ _ _ _ _ _ _ r Hrows Hin Hd)
    as (c & Hc & Hpath & _).
  apply list_children_entries in Hch. rewrite Forall_forall in Hch.
  exists c.1. split; [|done]. apply (entry_valid env Hwf root). by apply Hch.
Qed.

Lemma parent_link_first env expanded root items :
  flatten_tree env expanded root = Ok items →
  dirname root ≠ root →
  ∃ r0, getitem items 0 = Ok r0 ∧ full_path r0 = dirname root ∧ is_dir r0 = true.
Proof.
  intros Hf Hne.
  apply flatten_tree_sound in Hf as (children & rows & _ & _ & ->).
  unfold parent_link. simpl.
  destruct (String.eqb_spec (dirname root) root); [done|]. simpl.
  by eexists.
Qed.

(** X11. With the cursor on a directory row of the root itself that is not
    the parent link, Enter twice comes back: the first Enter makes the
    directory the root with the cursor on its parent link, and the second
    returns to the root the pass started from, now with nothing expanded
    and the cursor and the scroll offset at 0. *)
Theorem X11_enter_twice_returns_to_the_root env start s h1 h2 k1 k2 r :
  env_wf env →
  reachable env start s →
  k1 ∈ enter_keys → k2 ∈ enter_keys →
  selected_row (clamp h1 s) = Ok r →
  ¬ parent_link_selected (clamp h1 s) →
  is_dir r = true → depth r = 0 →
  ∃ items,
    flatten_tree env ∅ (path s) = Ok items
    ∧ main_loop env [(h1, k1); (h2, k2)] s = Waiting (State (path s) ∅ items 0 0).
Proof.
  intros Hwf Hreach Hk1 Hk2 Hr Hnot Hdir Hdepth.
  pose proof (reachable_coherent env Hwf start s Hreach) as Hc0.
  pose proof (clamp_coherent env h1 s Hc0) as Hc.
  pose proof (reachable_tidy env start s Hwf Hreach) as Ht.
  unfold selected_row in Hr.
  destruct (top_level_row env (expanded_dirs s) (path s) (flat_items s) r)
    as (e & Hv & Hpath); [done|by destruct Hc0|by eapply getitem_elem_of|done| |].
  { intros Hlink. apply Hnot. by exists r. }
  destruct (enter_directory_row env k1 (clamp h1 s) r Hwf Hc Hk1 Hr Hdir)
    as (items1 & Hitems1 & Hstep1).
  set (s1 := State (full_path r) ∅ items1 0 0) in *.
  assert (Hc1 : coherent env (clamp h2 s1)).
  { apply clamp_coherent. by apply (handle_key_coherent env Hwf k1 (clamp h1 s)). }
  assert (Hup : dirname (full_path r) = path s) by (rewrite Hpath; by apply dirname_join).
  destruct (parent_link_first env ∅ (full_path r) items1 Hitems1)
    as (r0 & Hr0 & Hpath0 & Hdir0).
  { rewrite Hup, Hpath. intros Heq.
    pose proof (join_length (path s) e Hv) as Hlen. rewrite <- Heq in Hlen. lia. }
  assert (Hsel : selected (clamp h2 s1) = 0%Z).
  { unfold clamp. simpl.
    assert (0 < Z.of_nat (length items1))%Z.
    { destruct items1; [done|]. simpl. lia. }
    destruct (Z.gtb_spec 0 (Z.of_nat (length items1) - 1)); [lia|done]. }
  destruct (enter_directory_row env k2 (clamp h2 s1) r0 Hwf Hc1 Hk2)
    as (items & Hitems & Hstep2); [by rewrite Hsel|done|].
  rewrite Hpath0, Hup in Hitems, Hstep2.
  exists items. split; [done|].
  simpl. by rewrite Hstep1, Hstep2.
Qed.

Lemma scenario_reachable_1 : reachable scenario_env "/r" (scenario_state 1).
Proof.
  apply (reach_step _ _ (scenario_state 0) 24 KEY_DOWN); [|vm_compute; reflexivity].
  apply reach_init. vm_compute. reflexivity.
Qed.

Lemma X11_enter_twice_returns_to_the_root_witness :
  env_wf scenario_env
  ∧ reachable scenario_env "/r" (scenario_state 1)
  ∧ KEY_ENTER ∈ enter_keys ∧ 10%Z ∈ enter_keys
  ∧ selected_row (clamp 24 (scenario_state 1)) = Ok (Row "├─ 📁 dir1" "/r/dir1" true 0)
  ∧ ¬ parent_link_selected (clamp 24 (scenario_state 1))
  ∧ ∃ items,
      flatten_tree scenario_env ∅ "/r" = Ok items
      ∧ main_loop scenario_env [(24%Z, KEY_ENTER); (24%Z, 10%Z)] (scenario_state 1)
        = Waiting (State "/r" ∅ items 0 0).
Proof.
  assert (Hk1 : KEY_ENTER ∈ enter_keys) by left.
  assert (Hk2 : 10%Z ∈ enter_keys) by (right; left).
  assert (Hr : selected_row (clamp 24 (scenario_state 1))
               = Ok (Row "├─ 📁 dir1" "/r/dir1" true 0)) by reflexivity.
  assert (Hn : ¬ parent_link_selected (clamp 24 (scenario_state 1))).
  { intros (r & Hsel & Hlink). rewrite Hr in Hsel. injection Hsel as <-.
    vm_compute in Hlink. discriminate. }
  split; [exact scenario_env_wf|]. split; [exact scenario_reachable_1|].
  split; [exact Hk1|]. split; [exact Hk2|]. split; [exact Hr|]. split; [exact Hn|].
  exact (X11_enter_twice_returns_to_the_root scenario_env "/r" (scenario_state 1)
           24 24 KEY_ENTER 10 _ scenario_env_wf scenario_reachable_1 Hk1 Hk2 Hr Hn
           eq_refl eq_refl).
Defined.

(** *** What the expansion set can gain *)

Lemma refresh_expanded env pth e sel off s' :
  refresh env pth e sel off = Continue s' → expanded_dirs s' = e.
Proof.
  unfold refresh. destruct (flatten_tree env e pth); [|done]. by intros [= <-].
Qed.

(** X7. One pass of the loop adds at most one path to the expansion set,
    and only in one way: a path that is expanded after the pass and was not
    before is the path of the directory row under the cursor, and the key
    was the right arrow. No other key, and no file row, expands anything. *)
Theorem X7_only_right_arrow_on_a_directory_expands env key s s' p :
  handle_key env key s = Continue s' →
  p ∈ expanded_dirs s' → p ∉ expanded_dirs s →
  key_in key [KEY_RIGHT; 261%Z] = true
  ∧ ∃ r, getitem (flat_items s) (selected s) = Ok r
         ∧ is_dir r = true ∧ full_path r = p.
Proof.
  unfold handle_key.
  destruct (key_in key [KEY_UP; _] && _); [by intros [= <-]|].
  destruct (key_in key [KEY_DOWN; _] && _); [by intros [= <-]|].
  destruct (key_in key [KEY_RIGHT; _]).
  { destruct (getitem _ _) as [r|]; [|done].
    destruct (is_dir r) eqn:Hdir; [|by intros [= <-]].
    intros ->%refresh_expanded Hin Hout. split; [done|].
    exists r. split; [done|]. split; [done|].
    apply elem_of_toggle in Hin. by case_bool_decide. }
  destruct (key_in key [KEY_LEFT; _]).
  { destruct (getitem _ _) as [r|]; [|done].
    destruct (is_dir r && _); [|by intros [= <-]].
    intros ->%refresh_expanded [Hin _]%elem_of_difference Hout. done. }
  destruct (key_in key [KEY_ENTER; _; _]).
  { destruct (getitem _ _) as [r|]; [|done].
    destruct (String.eqb _ ".."); [by intros ->%refresh_expanded|].
    destruct (is_dir r); intros ->%refresh_expanded; [|done].
    by intros Hin%elem_of_empty. }
  destruct (key_in key [KEY_q; _]); [done|]. by intros [= <-].
Qed.

Lemma X7_only_right_arrow_on_a_directory_expands_witness :
  handle_key scenario_env KEY_RIGHT (scenario_state 2)
  = Continue (State "/r" {["/r/dir2"]}
                [ Row "├─ 📁 .." "/" true 0;
                  Row "├─ 📁 dir1" "/r/dir1" true 0;
                  Row "├─ 📁 dir2" "/r/dir2" true 0;
                  Row "│  └─ 📄 c.txt" "/r/dir2/c.txt" false 1;
                  Row "├─ 📄 a.txt" "/r/a.txt" false 0;
                  Row "└─ 📄 B.txt" "/r/B.txt" false 0 ] 2 0)
  ∧ "/r/dir2" ∈ ({["/r/dir2"]} : gset string)
  ∧ ("/r/dir2" ∉ expanded_dirs (scenario_state 2))
  ∧ key_in KEY_RIGHT [KEY_RIGHT; 261%Z] = true
  ∧ ∃ r, getitem (flat_items (scenario_state 2)) (selected (scenario_state 2)) = Ok r
         ∧ is_dir r = true ∧ full_path r = "/r/dir2".
Proof.
  assert (H1 : handle_key scenario_env KEY_RIGHT (scenario_state 2)
               = Continue (State "/r" {["/r/dir2"]}
                   [ Row "├─ 📁 .." "/" true 0;
                     Row "├─ 📁 dir1" "/r/dir1" true 0;
                     Row "├─ 📁 dir2" "/r/dir2" true 0;
                     Row "│  └─ 📄 c.txt" "/r/dir2/c.txt" false 1;
                     Row "├─ 📄 a.txt" "/r/a.txt" false 0;
                     Row "└─ 📄 B.txt" "/r/B.txt" false 0 ] 2 0))
    by (vm_compute; reflexivity).
  assert (H2 : "/r/dir2" ∈ ({["/r/dir2"]} : gset string))
    by (apply elem_of_singleton; reflexivity).
  assert (H3 : "/r/dir2" ∉ expanded_dirs (scenario_state 2))
    by apply not_elem_of_empty.
  split; [exact H1|]. split; [exact H2|]. split; [exact H3|].
  exact (X7_only_right_arrow_on_a_directory_expands scenario_env KEY_RIGHT
           (scenario_state 2) _ "/r/dir2" H1 H2 H3).
Defined.
